(** * hashfill: filling a polygon with geohash cells

    A shallow embedding of [hashfill.go] and the properties of its
    recursive search ([computeVariableHashes]), its fixed-precision
    expansion ([extendHashToMaxPrecision]) and their orchestration
    ([Fill]).

    Conventions of the embedding.
    - Go's [int] values ([maxPrecision], [maxHashes], [len]) are integers
      of [Z]; the code only compares them, it never does arithmetic on them.
    - A Go [string] over the geohash alphabet is a [string]; [len(hash)] is
      its number of bytes, which is [String.length] for these ASCII symbols.
    - A [[]string] is a [slice]: either the nil slice or a slice holding a
      list of strings (possibly none).
    - A Go pair [([]string, error)] is a pair of a slice and an optional
      error; [None] is Go's nil error.
    - The two predicates are collaborators behind the interfaces
      [Container] and [Intersector]; they are fields of the filler and are
      taken as functions of the polygon and the cell returning Go's pair
      [(bool, error)]: a collaborator answers the same on the same
      polygon and cell and has no other effect (a search calls each
      predicate at most once on a cell).
    - Go's recursion is unbounded; the recursive functions take a [fuel]
      that bounds the depth of the call stack, and answer [None] when it is
      used up. *)

From Stdlib Require Import ZArith List String Ascii Bool Lia Sorted.
Import ListNotations.

Open Scope Z_scope.

(** ** Data *)

(** [geohashBase32Alphabet], in the order of the source. *)
Definition geohashBase32Alphabet : list string :=
  [ "0"; "1"; "2"; "3"; "4"; "5"; "6"; "7";
    "8"; "9"; "b"; "c"; "d"; "e"; "f"; "g";
    "h"; "j"; "k"; "m"; "n"; "p"; "q"; "r";
    "s"; "t"; "u"; "v"; "w"; "x"; "y"; "z" ]%string.

(** [type FillMode int] with its two named constants. *)
Definition FillMode : Type := Z.
Definition FillIntersects : FillMode := 1.
Definition FillContains : FillMode := 2.

(** A Go slice of strings. *)
Inductive slice : Type :=
| Nil
| Slice (l : list string).

Definition elems (s : slice) : list string :=
  match s with
  | Nil => []
  | Slice l => l
  end.

(** [len(s)] for a slice and for a string. *)
Definition len (s : slice) : Z := Z.of_nat (List.length (elems s)).
Definition strlen (s : string) : Z := Z.of_nat (String.length s).

(** [append(s, t...)]: with nothing to add Go hands back [s] itself,
    otherwise a slice holding the elements of both. *)
Definition append (s t : slice) : slice :=
  match elems t with
  | [] => s
  | _ :: _ => Slice (elems s ++ elems t)
  end.

Section Model.

(** [*geom.Polygon] is opaque to the filler; [E] stands for the error
    values that are not made by this package. *)
Context {Polygon E : Type}.

(** Go's [error] values: the one this package makes with [fmt.Errorf]
    (it carries the cap and the count it prints), and any other. *)
Inductive error : Type :=
| HashLimit (maxHashes have : Z)
| External (e : E).

(** What a Go function of result type [([]string, error)] returns. *)
Definition result : Type := slice * option error.

Definition predicate : Type := Polygon -> string -> bool * option error.

Record RecursiveFiller : Type := {
  maxPrecision : Z;
  fixedPrecision : bool;
  container : predicate;
  intersector : predicate
}.

(** The loop [for _, next := range geohashBase32Alphabet] of
    [extendHashToMaxPrecision] (lines 119-131) and of
    [computeVariableHashes] (lines 166-178). The two loops have the same
    body and differ in the function they call on [hash + next], which is
    [call] here; [alphabet] is what is left to range over and [hashes]
    the accumulator. *)
Fixpoint rangeAlphabet (call : string -> option result) (hash : string)
    (maxHashes : Z) (alphabet : list string) (hashes : slice)
    : option result :=
  match alphabet with
  | [] => Some (hashes, None)
  | next :: rest =>
      match call (hash ++ next)%string with
      | None => None
      | Some (_, Some err) => Some (Nil, Some err)
      | Some (out, None) =>
          if len out >? maxHashes
          then Some (Nil, Some (HashLimit maxHashes (len out)))
          else
            let hashes := append hashes out in
            if len hashes >? maxHashes
            then Some (Nil, Some (HashLimit maxHashes (len hashes)))
            else rangeAlphabet call hash maxHashes rest hashes
      end
  end.

(** [extendHashToMaxPrecision] (lines 114-133). *)
Fixpoint extendHashToMaxPrecision (f : RecursiveFiller) (fuel : nat)
    (hash : string) (maxHashes : Z) : option result :=
  match fuel with
  | O => None
  | S fuel' =>
      if strlen hash =? maxPrecision f
      then Some (Slice [hash], None)
      else
        rangeAlphabet
          (fun child => extendHashToMaxPrecision f fuel' child maxHashes)
          hash maxHashes geohashBase32Alphabet (Slice [])
  end.

(** [computeVariableHashes] (lines 137-180). *)
Fixpoint computeVariableHashes (f : RecursiveFiller) (fuel : nat)
    (fence : Polygon) (mode : FillMode) (hash : string) (maxHashes : Z)
    : option result :=
  match fuel with
  | O => None
  | S fuel' =>
      match container f fence hash with
      | (_, Some err) => Some (Nil, Some err)
      | (cont, None) =>
          if cont then Some (Slice [hash], None)
          else
            match intersector f fence hash with
            | (_, Some err) => Some (Nil, Some err)
            | (inter, None) =>
                if negb inter then Some (Nil, None)
                else if strlen hash =? maxPrecision f
                then
                  if mode =? FillIntersects
                  then Some (Slice [hash], None)
                  else Some (Nil, None)
                else
                  rangeAlphabet
                    (fun child =>
                       computeVariableHashes f fuel' fence mode child
                                             maxHashes)
                    hash maxHashes geohashBase32Alphabet (Slice [])
            end
      end
  end.

(** The loop [for _, hash := range hashes] of [Fill] (lines 100-109);
    [out] is the accumulator. *)
Fixpoint rangeHashes (f : RecursiveFiller) (fuel : nat) (maxHashes : Z)
    (hashes : list string) (out : slice) : option result :=
  match hashes with
  | [] => Some (out, None)
  | hash :: rest =>
      match extendHashToMaxPrecision f fuel hash maxHashes with
      | None => None
      | Some (_, Some err) => Some (Nil, Some err)
      | Some (extended, None) =>
          let out := append out extended in
          if len out >? maxHashes
          then Some (Nil, Some (HashLimit maxHashes (len out)))
          else rangeHashes f fuel maxHashes rest out
      end
  end.

(** [Fill] (lines 84-111). *)
Definition Fill (f : RecursiveFiller) (fuel : nat) (fence : Polygon)
    (mode : FillMode) (maxHashes : Z) : option result :=
  match computeVariableHashes f fuel fence mode "" maxHashes with
  | None => None
  | Some (_, Some err) => Some (Nil, Some err)
  | Some (hashes, None) =>
      if negb (fixedPrecision f) then Some (hashes, None)
      else
        let out := Slice [] in
        if len out >? maxHashes
        then Some (Nil, Some (HashLimit maxHashes (len out)))
        else rangeHashes f fuel maxHashes (elems hashes) out
  end.

End Model.

Arguments error : clear implicits.
Arguments result : clear implicits.
Arguments predicate : clear implicits.
Arguments RecursiveFiller : clear implicits.

Section Options.

Context {Polygon E : Type}.

(** [type Option]: a function that updates, through a pointer, the
    filler under construction. *)
Definition Option : Type :=
  RecursiveFiller Polygon E -> RecursiveFiller Polygon E.

(** [WithMaxPrecision] (lines 45-49). *)
Definition WithMaxPrecision (p : Z) : Option :=
  fun r =>
    {| maxPrecision := p; fixedPrecision := fixedPrecision r;
       container := container r; intersector := intersector r |}.

(** [WithFixedPrecision] (lines 53-57). *)
Definition WithFixedPrecision : Option :=
  fun r =>
    {| maxPrecision := maxPrecision r; fixedPrecision := true;
       container := container r; intersector := intersector r |}.

(** [WithPredicates] (lines 60-65). *)
Definition WithPredicates (contains intersects : predicate Polygon E)
    : Option :=
  fun r =>
    {| maxPrecision := maxPrecision r; fixedPrecision := fixedPrecision r;
       container := contains; intersector := intersects |}.

(** [NewRecursiveFiller] (lines 68-79). The default predicates [Contains]
    and [Intersects] of the package are declared in another file and are
    parameters here. *)
Definition NewRecursiveFiller (Contains Intersects : predicate Polygon E)
    (options : list Option) : RecursiveFiller Polygon E :=
  fold_left (fun filler op => op filler) options
            {| maxPrecision := 6; fixedPrecision := false;
               container := Contains; intersector := Intersects |}.

(** The loop [for _, op := range options] of [NewRecursiveFiller] from
    any filler. *)
Definition apply_options (options : list Option)
    (filler : RecursiveFiller Polygon E) : RecursiveFiller Polygon E :=
  fold_left (fun filler op => op filler) options filler.

(** The options that the package provides. *)
Definition package_option (o : Option) : Prop :=
  (exists p, o = WithMaxPrecision p)
  \/ o = WithFixedPrecision
  \/ exists contains intersects, o = WithPredicates contains intersects.

End Options.

Arguments Option : clear implicits.

(** ** Notions the properties are stated with *)

(** The same function as [Fill] with the comparison of lines 97-99 (the
    length of the fresh accumulator against [maxHashes], before the loop)
    left out. *)
Definition Fill_without_precheck {Polygon E : Type}
    (f : RecursiveFiller Polygon E) (fuel : nat) (fence : Polygon)
    (mode : FillMode) (maxHashes : Z) : option (result E) :=
  match computeVariableHashes f fuel fence mode "" maxHashes with
  | None => None
  | Some (_, Some err) => Some (Nil, Some err)
  | Some (hashes, None) =>
      if negb (fixedPrecision f) then Some (hashes, None)
      else rangeHashes f fuel maxHashes (elems hashes) (Slice [])
  end.

(** All sequences of [n] alphabet symbols, in lexicographic order of the
    alphabet (the order in which a depth-first walk meets them). *)
Fixpoint symbolSequences (n : nat) : list string :=
  match n with
  | O => [""%string]
  | S n' =>
      flat_map (fun s => map (String.append s) (symbolSequences n'))
               geohashBase32Alphabet
  end.

Section Notions.

Context {Polygon E : Type}.
Variable f : RecursiveFiller Polygon E.
Variable fence : Polygon.

(** Neither predicate returns an error on any cell. *)
Definition error_free : Prop :=
  forall c, snd (container f fence c) = None
            /\ snd (intersector f fence c) = None.

(** A call of [computeVariableHashes] on [c] gets the error [e] from one
    of its two predicate calls. *)
Definition fails_at (c : string) (e : error E) : Prop :=
  snd (container f fence c) = Some e
  \/ (container f fence c = (false, None)
      /\ snd (intersector f fence c) = Some e).

(** A call of [computeVariableHashes] on [c] reaches its loop. *)
Definition subdivides (c : string) : Prop :=
  container f fence c = (false, None)
  /\ intersector f fence c = (true, None)
  /\ strlen c <> maxPrecision f.

(** [visits mode maxHashes fuel c c']: the call of
    [computeVariableHashes] on [c] with [fuel] left makes (or is) a call
    on [c']. A call reaches the child [c + next] when it gets to its loop
    and the loop has gone through the symbols [before] of the alphabet
    without returning. *)
Inductive visits (mode : FillMode) (maxHashes : Z)
  : nat -> string -> string -> Prop :=
| visits_here : forall fuel c, visits mode maxHashes (S fuel) c c
| visits_child : forall fuel c before next after hashes c',
    subdivides c ->
    geohashBase32Alphabet = before ++ next :: after ->
    rangeAlphabet
      (fun child => computeVariableHashes f fuel fence mode child maxHashes)
      c maxHashes before (Slice []) = Some (hashes, None) ->
    visits mode maxHashes fuel (c ++ next)%string c' ->
    visits mode maxHashes (S fuel) c c'.

End Notions.

(** Total number of strings in a list of slices. *)
Definition total (outs : list slice) : Z :=
  Z.of_nat (List.length (List.concat (map elems outs))).

(** The children of [hash] along [syms] all return, without error, the
    slices [outs]. *)
Definition children_return {E : Type} (call : string -> option (result E))
    (hash : string) (syms : list string) (outs : list slice) : Prop :=
  Forall2 (fun s o => call (hash ++ s)%string = Some (o, None)) syms outs.

(** The depth left below a cell: [maxPrecision - len(c)]. *)
Definition depth_below {Polygon E : Type} (f : RecursiveFiller Polygon E)
    (c : string) : nat :=
  Z.to_nat (maxPrecision f - strlen c).

(** The error of a failed cap comparison. *)
Definition over_cap {E : Type} (maxHashes : Z) (e : error E) : Prop :=
  exists have, e = HashLimit maxHashes have /\ maxHashes < have.

(** Neither of two cells is a prefix of the other. *)
Definition apart (x y : string) : Prop :=
  String.prefix x y = false /\ String.prefix y x = false.

(** The cell [x] comes before the cell [y] in byte order, and neither is
    a prefix of the other. *)
Definition ascending (x y : string) : Prop :=
  apart x y /\ String.compare x y = Lt.

(** Two symbols, the first before the second in byte order. *)
Definition symbols_ascending (s t : string) : Prop :=
  exists a b,
    s = String a EmptyString /\ t = String b EmptyString
    /\ Ascii.compare a b = Lt.

(** The string is made of symbols of the alphabet. *)
Fixpoint over_alphabet (t : string) : bool :=
  match t with
  | EmptyString => true
  | String a t' =>
      existsb (String.eqb (String a EmptyString)) geohashBase32Alphabet
      && over_alphabet t'
  end.

(** The descendants of [h] at the maximum precision, in depth-first
    alphabet order. *)
Definition expansion {Polygon E : Type} (f : RecursiveFiller Polygon E)
    (h : string) : list string :=
  map (String.append h) (symbolSequences (depth_below f h)).

(** The search accepts the cell [h] as it is: the polygon contains it, or,
    in [FillIntersects] mode, [h] is at the maximum precision and the
    polygon intersects it without containing it. *)
Definition accepted {Polygon E : Type} (f : RecursiveFiller Polygon E)
    (fence : Polygon) (mode : FillMode) (h : string) : Prop :=
  container f fence h = (true, None)
  \/ (mode = FillIntersects
      /\ strlen h = maxPrecision f
      /\ container f fence h = (false, None)
      /\ intersector f fence h = (true, None)).

(** A polygon that intersects a child of a cell intersects the cell. *)
Definition intersects_upwards {Polygon E : Type}
    (f : RecursiveFiller Polygon E) (fence : Polygon) : Prop :=
  forall c s,
    In s geohashBase32Alphabet ->
    fst (intersector f fence (c ++ s)%string) = true ->
    fst (intersector f fence c) = true.



(** ** Polygons to run the code on

    A polygon given by the cells it encloses, the further cells it
    overlaps, and the cells on which the predicates fail. *)
Module Grid.

Record polygon : Type := {
  inside : list string;
  boundary : list string;
  broken : list string
}.

Definition mem (c : string) (l : list string) : bool :=
  existsb (String.eqb c) l.

Definition contains : predicate polygon string :=
  fun P c =>
    if mem c (broken P) then (false, Some (External c))
    else (mem c (inside P), None).

Definition intersects : predicate polygon string :=
  fun P c =>
    if mem c (broken P) then (false, Some (External c))
    else (mem c (inside P) || mem c (boundary P), None).

Definition filler (p : Z) (fixed : bool) : RecursiveFiller polygon string :=
  {| maxPrecision := p; fixedPrecision := fixed;
     container := contains; intersector := intersects |}.

(** Encloses the cell 9, overlaps the cell 8 and the root. *)
Definition corner : polygon :=
  {| inside := ["9"%string]; boundary := [""%string; "8"%string];
     broken := [] |}.

(** What the calls on the 32 children of the root return for [corner]
    at the maximum precision 1 in [FillIntersects] mode. *)
Definition corner_children : list slice :=
  map (fun s => if mem s ["8"%string; "9"%string] then Slice [s] else Nil)
      geohashBase32Alphabet.

(** Encloses the root cell. *)
Definition globe : polygon :=
  {| inside := [""%string]; boundary := []; broken := [] |}.

(** Overlaps nothing. *)
Definition nowhere : polygon :=
  {| inside := []; boundary := []; broken := [] |}.

(** Encloses the cells 9 and 8z, overlaps the cell 8 and the root. *)
Definition notch : polygon :=
  {| inside := ["9"%string; "8z"%string];
     boundary := [""%string; "8"%string]; broken := [] |}.

(** Overlaps the root; the predicates fail on the cell 1. *)
Definition malformed : polygon :=
  {| inside := []; boundary := [""%string]; broken := ["1"%string] |}.

(** Predicates of a polygon that overlaps every cell and encloses none. *)
Definition boundless (p : Z) (fixed : bool) : RecursiveFiller polygon string :=
  {| maxPrecision := p; fixedPrecision := fixed;
     container := fun _ _ => (false, None);
     intersector := fun _ _ => (true, None) |}.

(** Predicates of a polygon that overlaps every cell and encloses the
    cell [cell] alone. *)
Definition spot (cell : string) (p : Z) (fixed : bool)
    : RecursiveFiller polygon string :=
  {| maxPrecision := p; fixedPrecision := fixed;
     container := fun _ c => (String.eqb c cell, None);
     intersector := fun _ _ => (true, None) |}.

End Grid.

(** ** Tactics *)

(** Splits a goal or a hypothesis on the outcome of one turn of a loop:
    the call ran out of fuel, failed, or returned [out], and then on each
    of the comparisons with the cap. *)
Ltac loop_turn :=
  match goal with
  | |- context [match ?c with Some _ => _ | None => _ end] =>
      let out := fresh "out" in
      let err := fresh "err" in
      let Hcall := fresh "Hcall" in
      destruct c as [[out [err|]]|] eqn:Hcall
  | H : context [match ?c with Some _ => _ | None => _ end] |- _ =>
      let out := fresh "out" in
      let err := fresh "err" in
      let Hcall := fresh "Hcall" in
      destruct c as [[out [err|]]|] eqn:Hcall
  end.

Ltac cap_check :=
  match goal with
  | |- context [?a >? ?b] =>
      let Hcap := fresh "Hcap" in
      destruct (Z.gtb_spec a b) as [Hcap|Hcap]
  | H : context [?a >? ?b] |- _ =>
      let Hcap := fresh "Hcap" in
      destruct (Z.gtb_spec a b) as [Hcap|Hcap]
  end.

(** Names the pieces of the two predicate calls of a search on a cell. *)
Ltac predicate_calls f fence c :=
  let cont := fresh "cont" in
  let inter := fresh "inter" in
  let cerr := fresh "cerr" in
  let ierr := fresh "ierr" in
  let Hcont := fresh "Hcont" in
  let Hinter := fresh "Hinter" in
  destruct (container f fence c) as [cont [cerr|]] eqn:Hcont;
  [|destruct cont;
    [|destruct (intersector f fence c) as [inter [ierr|]] eqn:Hinter;
      [|destruct inter]]].

(** ** Slices *)

Lemma elems_append (s t : slice) : elems (append s t) = elems s ++ elems t.
Proof.
  unfold append. destruct (elems t) eqn:Ht; [|reflexivity].
  now rewrite app_nil_r.
Qed.

Lemma append_Slice (l : list string) (t : slice) :
  append (Slice l) t = Slice (l ++ elems t).
Proof.
  unfold append. destruct (elems t); [|reflexivity].
  now rewrite app_nil_r.
Qed.

Lemma len_nonneg (s : slice) : 0 <= len s.
Proof. unfold len. lia. Qed.

Lemma len_Slice (l : list string) : len (Slice l) = Z.of_nat (List.length l).
Proof. reflexivity. Qed.

(** ** The alphabet *)

Lemma alphabet_length : List.length geohashBase32Alphabet = 32%nat.
Proof. reflexivity. Qed.

Lemma alphabet_nonempty : geohashBase32Alphabet <> [].
Proof. discriminate. Qed.

Lemma alphabet_symbols :
  Forall (fun s => exists a, s = String a EmptyString) geohashBase32Alphabet.
Proof. unfold geohashBase32Alphabet. repeat constructor; eexists; reflexivity. Qed.

Lemma alphabet_distinct :
  ForallOrdPairs (fun s t : string => s <> t) geohashBase32Alphabet.
Proof.
  unfold geohashBase32Alphabet.
  repeat (constructor; [repeat (constructor; [discriminate|]); constructor|]).
  constructor.
Qed.

(** ** The loop over the alphabet *)

Lemma total_cons (o : slice) (outs : list slice) :
  total (o :: outs) = len o + total outs.
Proof. unfold total, len. simpl. rewrite length_app. lia. Qed.

Lemma total_nonneg (outs : list slice) : 0 <= total outs.
Proof. unfold total. lia. Qed.

Section Loop.

Context {E : Type}.
Variable call : string -> option (result E).
Variable hash : string.
Variable maxHashes : Z.

(** A loop that completes had every child return without error, hands
    back the accumulator followed by the children's strings in order,
    and, if it made a turn at all, stays within the cap. *)
Lemma rangeAlphabet_completes :
  forall syms acc r,
    rangeAlphabet call hash maxHashes syms (Slice acc) = Some (r, None) ->
    exists outs,
      children_return call hash syms outs
      /\ r = Slice (acc ++ List.concat (map elems outs))
      /\ (syms <> [] -> len r <= maxHashes).
Proof.
  induction syms as [|next rest IH]; intros acc r H; simpl in H.
  - inversion H; subst. exists []. repeat split.
    + constructor.
    + simpl. now rewrite app_nil_r.
    + intros C. now destruct C.
  - loop_turn; try discriminate.
    cap_check; try discriminate.
    rewrite append_Slice in H. cap_check; try discriminate.
    destruct (IH _ _ H) as (outs & Hret & -> & Hle).
    exists (out :: outs). repeat split.
    + constructor; assumption.
    + simpl. now rewrite app_assoc.
    + intros _. destruct rest as [|next' rest'].
      * inversion Hret; subst. simpl. rewrite app_nil_r.
        rewrite len_Slice in *. exact Hcap0.
      * apply Hle. discriminate.
Qed.

(** Conversely, when every child returns without error and all their
    strings fit under the cap with the accumulator, the loop completes. *)
Lemma rangeAlphabet_fits :
  forall syms outs acc,
    children_return call hash syms outs ->
    Z.of_nat (List.length acc) + total outs <= maxHashes ->
    rangeAlphabet call hash maxHashes syms (Slice acc)
    = Some (Slice (acc ++ List.concat (map elems outs)), None).
Proof.
  intros syms outs acc Hret. revert acc.
  induction Hret as [|next o rest outs Hcall Hret IH]; intros acc Hle; simpl.
  - now rewrite app_nil_r.
  - rewrite Hcall. rewrite total_cons in Hle.
    pose proof (total_nonneg outs) as Hpos.
    pose proof (len_nonneg o) as Hpos'.
    cap_check; [lia|].
    rewrite append_Slice, len_Slice, length_app.
    cap_check; [unfold len in *; lia|].
    rewrite IH.
    + now rewrite app_assoc.
    + rewrite length_app. unfold len in *. lia.
Qed.

(** When every child returns without error but their strings do not fit
    under the cap, the loop returns the cap error, with a count above the
    cap that it has reached. *)
Lemma rangeAlphabet_overflows :
  forall syms outs acc,
    children_return call hash syms outs ->
    syms <> [] ->
    maxHashes < Z.of_nat (List.length acc) + total outs ->
    exists have,
      maxHashes < have <= Z.of_nat (List.length acc) + total outs
      /\ rangeAlphabet call hash maxHashes syms (Slice acc)
         = Some (Nil, Some (HashLimit maxHashes have)).
Proof.
  intros syms outs acc Hret. revert acc.
  induction Hret as [|next o rest outs Hcall Hret IH]; intros acc Hne Hlt.
  - now destruct Hne.
  - simpl. rewrite Hcall. rewrite total_cons in Hlt.
    pose proof (total_nonneg outs) as Hpos.
    cap_check.
    + exists (len o). split; [|reflexivity]. rewrite total_cons. lia.
    + rewrite append_Slice, len_Slice, length_app.
      cap_check.
      * eexists. split; [|reflexivity].
        rewrite total_cons. unfold len in *. lia.
      * destruct rest as [|next' rest'].
        -- inversion Hret; subst. unfold total, len in *. simpl in Hlt. lia.
        -- destruct (IH (acc ++ elems o)) as (have & Hhave & Heq).
           ++ discriminate.
           ++ rewrite length_app. unfold len in *. lia.
           ++ exists have. split; [|exact Heq].
              rewrite length_app in Hhave.
              rewrite total_cons. unfold len in *. lia.
Qed.

(** A loop that fails returns no slice, and its error is either the
    error of a child, unchanged, or the cap error with a count above the
    cap. *)
Lemma rangeAlphabet_fails :
  forall syms acc r e,
    rangeAlphabet call hash maxHashes syms acc = Some (r, Some e) ->
    r = Nil
    /\ ((exists s o, In s syms /\ call (hash ++ s)%string = Some (o, Some e))
        \/ exists have, e = HashLimit maxHashes have /\ maxHashes < have).
Proof.
  induction syms as [|next rest IH]; intros acc r e H; simpl in H.
  - discriminate.
  - loop_turn; try discriminate.
    + inversion H; subst. split; [reflexivity|].
      left. exists next, out. split; [now left | assumption].
    + cap_check.
      * inversion H; subst. split; [reflexivity|]. right. eauto.
      * cap_check.
        -- inversion H; subst. split; [reflexivity|]. right. eauto.
        -- destruct (IH _ _ _ H) as [-> [(s & o & Hin & Hs)|Hcap']].
           ++ split; [reflexivity|]. left. exists s, o.
              split; [now right | assumption].
           ++ split; [reflexivity|]. now right.
Qed.

(** The loop over [before ++ after] is the loop over [before] followed,
    if that one completes, by the loop over [after]. *)
Lemma rangeAlphabet_app :
  forall before after acc,
    rangeAlphabet call hash maxHashes (before ++ after) acc
    = match rangeAlphabet call hash maxHashes before acc with
      | Some (acc', None) => rangeAlphabet call hash maxHashes after acc'
      | other => other
      end.
Proof.
  induction before as [|next rest IH]; intros after acc; simpl.
  - reflexivity.
  - loop_turn; try reflexivity.
    cap_check; [reflexivity|]. cap_check; [reflexivity|]. apply IH.
Qed.

(** The loop returns as soon as every call it makes does. *)
Lemma rangeAlphabet_returns :
  forall syms acc,
    (forall s, In s syms -> exists r, call (hash ++ s)%string = Some r) ->
    exists r, rangeAlphabet call hash maxHashes syms acc = Some r.
Proof.
  induction syms as [|next rest IH]; intros acc Hall; simpl.
  - eauto.
  - destruct (Hall next (or_introl eq_refl)) as [[out [err|]] ->]; [eauto|].
    cap_check; [eauto|]. cap_check; [eauto|].
    apply IH. intros s Hs. apply Hall. now right.
Qed.

(** A loop whose first call runs out of fuel runs out of fuel. *)
Lemma rangeAlphabet_starves :
  forall next rest acc,
    call (hash ++ next)%string = None ->
    rangeAlphabet call hash maxHashes (next :: rest) acc = None.
Proof. intros next rest acc H. simpl. now rewrite H. Qed.

End Loop.

(** The loop only depends on what its calls return: calls that return at
    least as often, with the same results, give the same result. *)
Lemma rangeAlphabet_mono {E : Type} (call call' : string -> option (result E))
    (hash : string) (maxHashes : Z) :
  forall syms acc r,
    (forall s x, In s syms -> call (hash ++ s)%string = Some x ->
                 call' (hash ++ s)%string = Some x) ->
    rangeAlphabet call hash maxHashes syms acc = Some r ->
    rangeAlphabet call' hash maxHashes syms acc = Some r.
Proof.
  induction syms as [|next rest IH]; intros acc r Hle H; simpl in *.
  - exact H.
  - destruct (call (hash ++ next)%string) as [x|] eqn:Hcall; [|discriminate].
    rewrite (Hle next x (or_introl eq_refl) Hcall).
    destruct x as [out [err|]]; [exact H|].
    cap_check; [exact H|]. cap_check; [exact H|].
    apply IH; [|exact H]. intros s y Hs. apply Hle. now right.
Qed.

(** ** Strings *)

Lemma string_app_assoc (a b c : string) :
  ((a ++ b) ++ c = a ++ (b ++ c))%string.
Proof. induction a as [|x a IH]; simpl; [reflexivity | now rewrite IH]. Qed.

Lemma string_app_nil_r (a : string) : (a ++ "" = a)%string.
Proof. induction a as [|x a IH]; simpl; [reflexivity | now rewrite IH]. Qed.

Lemma strlen_app (a b : string) : strlen (a ++ b) = strlen a + strlen b.
Proof.
  unfold strlen. induction a as [|x a IH]; simpl String.length; [lia|].
  rewrite !Nat2Z.inj_succ. lia.
Qed.

Lemma strlen_symbol (s : string) :
  In s geohashBase32Alphabet -> strlen s = 1.
Proof.
  intros Hs. pose proof alphabet_symbols as Hall.
  rewrite Forall_forall in Hall. destruct (Hall s Hs) as [a ->]. reflexivity.
Qed.

Lemma strlen_child (c s : string) :
  In s geohashBase32Alphabet -> strlen (c ++ s) = strlen c + 1.
Proof. intros Hs. now rewrite strlen_app, (strlen_symbol s Hs). Qed.

Lemma prefix_app (a t : string) : String.prefix a (a ++ t) = true.
Proof.
  induction a as [|x a IH]; simpl; [now destruct t|].
  destruct (ascii_dec x x) as [_|C]; [exact IH | now destruct C].
Qed.

Lemma prefix_inv (a b : string) :
  String.prefix a b = true -> exists t, b = (a ++ t)%string.
Proof.
  revert b. induction a as [|x a IH]; intros b H.
  - exists b. reflexivity.
  - destruct b as [|y b]; simpl in H; [discriminate|].
    destruct (ascii_dec x y) as [->|_]; [|discriminate].
    destruct (IH b H) as [t ->]. now exists t.
Qed.

Lemma prefix_app_cancel (c a b : string) :
  String.prefix (c ++ a) (c ++ b) = String.prefix a b.
Proof.
  induction c as [|x c IH]; simpl; [reflexivity|].
  destruct (ascii_dec x x) as [_|C]; [exact IH | now destruct C].
Qed.

(** Two cells below different children of a cell: neither is a prefix of
    the other. *)
Lemma prefix_siblings (c s t x y : string) :
  In s geohashBase32Alphabet -> In t geohashBase32Alphabet -> s <> t ->
  String.prefix ((c ++ s) ++ x) ((c ++ t) ++ y) = false.
Proof.
  intros Hs Ht Hne. pose proof alphabet_symbols as Hall.
  rewrite Forall_forall in Hall.
  destruct (Hall s Hs) as [a ->]. destruct (Hall t Ht) as [b ->].
  rewrite !string_app_assoc, prefix_app_cancel. simpl.
  destruct (ascii_dec a b) as [->|_]; [now destruct Hne | reflexivity].
Qed.

(** ** Fuel *)

Section Fuel.

Context {Polygon E : Type}.
Variable f : RecursiveFiller Polygon E.

(** One level of each recursive function. *)
Lemma extendHashToMaxPrecision_S (fuel : nat) (hash : string)
    (maxHashes : Z) :
  extendHashToMaxPrecision f (S fuel) hash maxHashes
  = if strlen hash =? maxPrecision f
    then Some (Slice [hash], None)
    else
      rangeAlphabet
        (fun child => extendHashToMaxPrecision f fuel child maxHashes)
        hash maxHashes geohashBase32Alphabet (Slice []).
Proof. reflexivity. Qed.

Lemma computeVariableHashes_S (fuel : nat) (fence : Polygon)
    (mode : FillMode) (hash : string) (maxHashes : Z) :
  computeVariableHashes f (S fuel) fence mode hash maxHashes
  = match container f fence hash with
    | (_, Some err) => Some (Nil, Some err)
    | (cont, None) =>
        if cont then Some (Slice [hash], None)
        else
          match intersector f fence hash with
          | (_, Some err) => Some (Nil, Some err)
          | (inter, None) =>
              if negb inter then Some (Nil, None)
              else if strlen hash =? maxPrecision f
              then
                if mode =? FillIntersects
                then Some (Slice [hash], None)
                else Some (Nil, None)
              else
                rangeAlphabet
                  (fun child =>
                     computeVariableHashes f fuel fence mode child maxHashes)
                  hash maxHashes geohashBase32Alphabet (Slice [])
          end
    end.
Proof. reflexivity. Qed.

(** More fuel does not change what a call returns. *)
Lemma extendHashToMaxPrecision_mono :
  forall n m hash maxHashes r,
    (n <= m)%nat ->
    extendHashToMaxPrecision f n hash maxHashes = Some r ->
    extendHashToMaxPrecision f m hash maxHashes = Some r.
Proof.
  induction n as [|n IH]; intros m hash maxHashes r Hle H; [discriminate|].
  destruct m as [|m]; [lia|]. rewrite extendHashToMaxPrecision_S in *.
  destruct (strlen hash =? maxPrecision f); [exact H|].
  eapply rangeAlphabet_mono; [|exact H].
  intros s x _ Hs. eapply IH; [|exact Hs]. lia.
Qed.

Lemma computeVariableHashes_mono :
  forall n m fence mode hash maxHashes r,
    (n <= m)%nat ->
    computeVariableHashes f n fence mode hash maxHashes = Some r ->
    computeVariableHashes f m fence mode hash maxHashes = Some r.
Proof.
  induction n as [|n IH]; intros m fence mode hash maxHashes r Hle H;
    [discriminate|].
  destruct m as [|m]; [lia|]. rewrite computeVariableHashes_S in *.
  destruct (container f fence hash) as [cont [err|]]; [exact H|].
  destruct cont; [exact H|].
  destruct (intersector f fence hash) as [inter [err|]]; [exact H|].
  destruct (negb inter); [exact H|].
  destruct (strlen hash =? maxPrecision f); [exact H|].
  eapply rangeAlphabet_mono; [|exact H].
  intros s x _ Hs. eapply IH; [|exact Hs]. lia.
Qed.

Lemma rangeHashes_mono :
  forall n m maxHashes hashes out r,
    (n <= m)%nat ->
    rangeHashes f n maxHashes hashes out = Some r ->
    rangeHashes f m maxHashes hashes out = Some r.
Proof.
  intros n m maxHashes hashes. induction hashes as [|hash rest IH];
    intros out r Hle H; simpl in *; [exact H|].
  destruct (extendHashToMaxPrecision f n hash maxHashes) as [x|] eqn:Hx;
    [|discriminate].
  rewrite (extendHashToMaxPrecision_mono _ _ _ _ _ Hle Hx).
  destruct x as [extended [err|]]; [exact H|].
  cap_check; [exact H|]. now apply IH.
Qed.

Lemma Fill_mono :
  forall n m fence mode maxHashes r,
    (n <= m)%nat ->
    Fill f n fence mode maxHashes = Some r ->
    Fill f m fence mode maxHashes = Some r.
Proof.
  unfold Fill. intros n m fence mode maxHashes r Hle H.
  destruct (computeVariableHashes f n fence mode "" maxHashes) as [x|] eqn:Hx;
    [|discriminate].
  rewrite (computeVariableHashes_mono _ _ _ _ _ _ _ Hle Hx).
  destruct x as [hashes [err|]]; [exact H|].
  destruct (negb (fixedPrecision f)); [exact H|].
  cbv zeta in *. cap_check; [exact H|].
  eapply rangeHashes_mono; eassumption.
Qed.

Lemma depth_below_child (c s : string) :
  In s geohashBase32Alphabet ->
  strlen c <= maxPrecision f -> strlen c <> maxPrecision f ->
  strlen (c ++ s) <= maxPrecision f
  /\ depth_below f c = S (depth_below f (c ++ s)).
Proof.
  intros Hs Hle Hne. unfold depth_below. rewrite (strlen_child c s Hs).
  split; lia.
Qed.

(** With more fuel than the depth left below the cell, the search
    returns. *)
Lemma computeVariableHashes_returns :
  forall fuel fence mode c maxHashes,
    strlen c <= maxPrecision f ->
    (depth_below f c < fuel)%nat ->
    exists r, computeVariableHashes f fuel fence mode c maxHashes = Some r.
Proof.
  induction fuel as [|fuel IH]; intros fence mode c maxHashes Hle Hfuel;
    [lia|].
  rewrite computeVariableHashes_S.
  destruct (container f fence c) as [cont [err|]]; [eauto|].
  destruct cont; [eauto|].
  destruct (intersector f fence c) as [inter [err|]]; [eauto|].
  destruct (negb inter); [eauto|].
  destruct (Z.eqb_spec (strlen c) (maxPrecision f)) as [Heq|Hne].
  - destruct (mode =? FillIntersects); eauto.
  - apply rangeAlphabet_returns. intros s Hs.
    destruct (depth_below_child c s Hs Hle Hne) as [Hle' Hd].
    apply IH; [exact Hle' | lia].
Qed.

(** So does the expansion. *)
Lemma extendHashToMaxPrecision_returns :
  forall fuel c maxHashes,
    strlen c <= maxPrecision f ->
    (depth_below f c < fuel)%nat ->
    exists r, extendHashToMaxPrecision f fuel c maxHashes = Some r.
Proof.
  induction fuel as [|fuel IH]; intros c maxHashes Hle Hfuel; [lia|].
  rewrite extendHashToMaxPrecision_S.
  destruct (Z.eqb_spec (strlen c) (maxPrecision f)) as [Heq|Hne]; [eauto|].
  apply rangeAlphabet_returns. intros s Hs.
  destruct (depth_below_child c s Hs Hle Hne) as [Hle' Hd].
  apply IH; [exact Hle' | lia].
Qed.

(** Below the maximum precision nothing stops the recursion: from a cell
    longer than the maximum precision (any cell, when the maximum
    precision is negative), with a polygon that intersects every cell and
    contains none, no amount of fuel makes the search return. *)
Remark computeVariableHashes_starves :
  forall fence mode maxHashes,
    (forall c, container f fence c = (false, None)
               /\ intersector f fence c = (true, None)) ->
    forall fuel c,
      maxPrecision f < strlen c ->
      computeVariableHashes f fuel fence mode c maxHashes = None.
Proof.
  intros fence mode maxHashes Hall.
  induction fuel as [|fuel IH]; intros c Hlen; [reflexivity|].
  rewrite computeVariableHashes_S.
  destruct (Hall c) as [-> ->]. cbn [negb].
  rewrite (proj2 (Z.eqb_neq _ _)) by lia.
  pose proof strlen_child as Hchild. pose proof alphabet_nonempty as Hne.
  destruct geohashBase32Alphabet as [|next rest].
  - now destruct Hne.
  - apply rangeAlphabet_starves. apply IH.
    rewrite (Hchild c next (or_introl eq_refl)). lia.
Qed.

End Fuel.

(** ** The search, one call at a time *)

(** C1, as the code has it. With predicates that return no error, a call
    of [computeVariableHashes] on [c] (with fuel for one more level)
    returns [[c]] when the polygon contains [c]; else nil when it does not
    intersect [c]; else, at the maximum precision, [[c]] in
    [FillIntersects] mode and nil in any other mode ([FillContains]
    included); else it goes through the 32 children, and when they all
    return without error it returns their results concatenated in the
    order of the alphabet if these fit under [maxHashes] in total, and the
    cap error, with a count above the cap, if they do not. Whenever such a
    call returns a slice, all the children returned without error and the
    slice is the concatenation of their results. *)
Theorem computeVariableHashes_case_analysis {Polygon E : Type}
    (f : RecursiveFiller Polygon E) (fence : Polygon) (mode : FillMode)
    (maxHashes : Z) (c : string) (fuel : nat) :
  error_free f fence ->
  let search := computeVariableHashes f (S fuel) fence mode c maxHashes in
  let child s := computeVariableHashes f fuel fence mode (c ++ s) maxHashes in
  (fst (container f fence c) = true -> search = Some (Slice [c], None))
  /\ (fst (container f fence c) = false ->
      fst (intersector f fence c) = false ->
      search = Some (Nil, None))
  /\ (fst (container f fence c) = false ->
      fst (intersector f fence c) = true ->
      strlen c = maxPrecision f ->
      (mode = FillIntersects -> search = Some (Slice [c], None))
      /\ (mode <> FillIntersects -> search = Some (Nil, None)))
  /\ (fst (container f fence c) = false ->
      fst (intersector f fence c) = true ->
      strlen c <> maxPrecision f ->
      (forall outs,
          Forall2 (fun s o => child s = Some (o, None))
                  geohashBase32Alphabet outs ->
          (total outs <= maxHashes ->
           search = Some (Slice (List.concat (map elems outs)), None))
          /\ (maxHashes < total outs ->
              exists have,
                maxHashes < have <= total outs
                /\ search = Some (Nil, Some (HashLimit maxHashes have))))
      /\ (forall r,
             search = Some (r, None) ->
             exists outs,
               Forall2 (fun s o => child s = Some (o, None))
                       geohashBase32Alphabet outs
               /\ r = Slice (List.concat (map elems outs)))).
Proof.
  intros Hfree search child. subst search child.
  rewrite computeVariableHashes_S.
  destruct (Hfree c) as [Hc Hi].
  destruct (container f fence c) as [cont cerr].
  destruct (intersector f fence c) as [inter ierr].
  simpl in Hc, Hi. subst cerr ierr. simpl fst.
  split; [|split; [|split]].
  - intros ->. reflexivity.
  - intros -> ->. reflexivity.
  - intros -> -> Hlen. cbn [negb]. rewrite (proj2 (Z.eqb_eq _ _) Hlen). split.
    + intros ->. reflexivity.
    + intros Hmode. now rewrite (proj2 (Z.eqb_neq _ _) Hmode).
  - intros -> -> Hlen. cbn [negb]. rewrite (proj2 (Z.eqb_neq _ _) Hlen). split.
    + intros outs Hret. split; intros Htotal.
      * now apply (rangeAlphabet_fits _ _ _ _ _ []).
      * apply (rangeAlphabet_overflows _ _ _ _ _ []);
          auto using alphabet_nonempty.
    + intros r H. apply rangeAlphabet_completes in H.
      destruct H as (outs & Hret & -> & _). now exists outs.
Qed.

Lemma error_free_grid (p : Z) (fixed : bool) (P : Grid.polygon) :
  Grid.broken P = [] -> error_free (Grid.filler p fixed) P.
Proof.
  intros Hb c. simpl. unfold Grid.contains, Grid.intersects.
  rewrite Hb. simpl. split; reflexivity.
Qed.

Lemma computeVariableHashes_case_analysis_witness :
  error_free (Grid.filler 1 false) Grid.corner
  /\ computeVariableHashes (Grid.filler 1 false) 2 Grid.corner
                           FillIntersects "" 2
     = Some (Slice ["8"%string; "9"%string], None).
Proof.
  assert (Hfree : error_free (Grid.filler 1 false) Grid.corner)
    by (now apply error_free_grid).
  split; [exact Hfree|].
  destruct (computeVariableHashes_case_analysis
              (Grid.filler 1 false) Grid.corner FillIntersects 2 ""%string 1
              Hfree) as (_ & _ & _ & Hloop).
  destruct (Hloop eq_refl eq_refl) as [Hfwd _]; [vm_compute; discriminate|].
  destruct (Hfwd Grid.corner_children) as [Hfits _].
  - vm_compute. repeat constructor.
  - apply Hfits. vm_compute. discriminate.
Defined.

(** The statement of C1 without the cap fails: under the cap 0 the call on
    the root goes through children that all return without error, and
    returns the cap error, not the concatenation of their results. *)
Lemma computeVariableHashes_case_analysis_needs_cap :
  error_free (Grid.filler 1 false) Grid.corner
  /\ fst (container (Grid.filler 1 false) Grid.corner ""%string) = false
  /\ fst (intersector (Grid.filler 1 false) Grid.corner ""%string) = true
  /\ strlen "" <> maxPrecision (Grid.filler 1 false)
  /\ Forall2 (fun s o =>
                computeVariableHashes (Grid.filler 1 false) 1 Grid.corner
                                      FillIntersects ("" ++ s) 0
                = Some (o, None))
             geohashBase32Alphabet Grid.corner_children
  /\ computeVariableHashes (Grid.filler 1 false) 2 Grid.corner
                           FillIntersects "" 0
     = Some (Nil, Some (HashLimit 0 1))
  /\ computeVariableHashes (Grid.filler 1 false) 2 Grid.corner
                           FillIntersects "" 0
     <> Some (Slice (List.concat (map elems Grid.corner_children)), None).
Proof.
  split; [now apply error_free_grid|].
  split; [reflexivity|]. split; [reflexivity|].
  split; [vm_compute; discriminate|].
  split; [vm_compute; repeat constructor|].
  split; [vm_compute; reflexivity | vm_compute; discriminate].
Qed.

(** C10. A cell that the polygon contains is returned as [[c]] whatever
    the cap is, and so [Fill] without fixed precision returns the root
    cell alone, for every [maxHashes], when the polygon contains the root
    cell. *)
Theorem contained_cell_ignores_cap {Polygon E : Type}
    (f : RecursiveFiller Polygon E) (fence : Polygon) (mode : FillMode)
    (maxHashes : Z) (fuel : nat) :
  (forall c,
      container f fence c = (true, None) ->
      computeVariableHashes f (S fuel) fence mode c maxHashes
      = Some (Slice [c], None))
  /\ (fixedPrecision f = false ->
      container f fence ""%string = (true, None) ->
      Fill f (S fuel) fence mode maxHashes = Some (Slice [""%string], None)).
Proof.
  assert (Hsearch : forall c,
             container f fence c = (true, None) ->
             computeVariableHashes f (S fuel) fence mode c maxHashes
             = Some (Slice [c], None)).
  { intros c Hc. rewrite computeVariableHashes_S, Hc. reflexivity. }
  split; [exact Hsearch|].
  intros Hfixed Hc. unfold Fill. rewrite (Hsearch _ Hc), Hfixed. reflexivity.
Qed.

Lemma contained_cell_ignores_cap_witness :
  fixedPrecision (Grid.filler 6 false) = false
  /\ container (Grid.filler 6 false) Grid.globe ""%string = (true, None)
  /\ Fill (Grid.filler 6 false) 1 Grid.globe FillContains (-5)
     = Some (Slice [""%string], None).
Proof.
  split; [reflexivity|]. split; [reflexivity|].
  apply (contained_cell_ignores_cap (Grid.filler 6 false) Grid.globe
                                    FillContains (-5) 0); reflexivity.
Defined.

(** With predicates that return no error, a call accepts its cell, drops
    it, or goes through its loop, and then what it returns without error
    is the slice of the loop, never nil. *)
Lemma computeVariableHashes_outcomes {Polygon E : Type}
    (f : RecursiveFiller Polygon E) (fence : Polygon) (mode : FillMode)
    (maxHashes : Z) (c : string) (fuel : nat) :
  error_free f fence ->
  computeVariableHashes f (S fuel) fence mode c maxHashes
  = Some (Slice [c], None)
  \/ computeVariableHashes f (S fuel) fence mode c maxHashes
     = Some (Nil, None)
  \/ (subdivides f fence c
      /\ forall r,
          computeVariableHashes f (S fuel) fence mode c maxHashes
          = Some (r, None) ->
          exists l, r = Slice l).
Proof.
  intros Hfree. rewrite computeVariableHashes_S.
  destruct (Hfree c) as [Hc Hi]. unfold subdivides.
  destruct (container f fence c) as [cont cerr].
  destruct (intersector f fence c) as [inter ierr].
  simpl in Hc, Hi. subst cerr ierr.
  destruct cont; [now left|]. destruct inter; cbn [negb]; [|now right; left].
  destruct (Z.eqb_spec (strlen c) (maxPrecision f)) as [Hlen|Hlen].
  - destruct (mode =? FillIntersects); [now left | now right; left].
  - right; right. split; [auto|]. intros r H.
    apply rangeAlphabet_completes in H.
    destruct H as (outs & _ & -> & _). eauto.
Qed.

(** C7, as the code has it. A call that returns nil and no error (the
    only way the search drops a cell: a call that gets to its loop returns
    the loop's slice or an error) is on a cell that the polygon does not
    intersect, or else on a cell at the maximum precision that the polygon
    intersects without containing it, in a mode other than
    [FillIntersects]. In [FillIntersects] mode the polygon does not
    intersect a cell that is dropped. *)
Theorem rejected_cell {Polygon E : Type}
    (f : RecursiveFiller Polygon E) (fence : Polygon) (mode : FillMode)
    (maxHashes : Z) (c : string) (fuel : nat) :
  error_free f fence ->
  computeVariableHashes f fuel fence mode c maxHashes = Some (Nil, None) ->
  (fst (intersector f fence c) = false
   \/ (mode <> FillIntersects
       /\ strlen c = maxPrecision f
       /\ fst (container f fence c) = false
       /\ fst (intersector f fence c) = true))
  /\ (mode = FillIntersects -> fst (intersector f fence c) = false).
Proof.
  intros Hfree H. destruct fuel as [|fuel]; [discriminate|].
  rewrite computeVariableHashes_S in H.
  destruct (Hfree c) as [Hc Hi].
  destruct (container f fence c) as [cont cerr].
  destruct (intersector f fence c) as [inter ierr].
  simpl in Hc, Hi. subst cerr ierr. simpl fst.
  destruct cont; [discriminate|].
  destruct inter; cbn [negb] in H; [|split; auto].
  destruct (Z.eqb_spec (strlen c) (maxPrecision f)) as [Hlen|Hlen].
  - destruct (Z.eqb_spec mode FillIntersects) as [Hmode|Hmode];
      [discriminate|].
    split; [right; auto | intros C; now destruct Hmode].
  - apply rangeAlphabet_completes in H.
    destruct H as (outs & _ & C & _). discriminate.
Qed.

Lemma rejected_cell_witness :
  error_free (Grid.filler 1 false) Grid.corner
  /\ computeVariableHashes (Grid.filler 1 false) 1 Grid.corner
                           FillIntersects "7" 10 = Some (Nil, None)
  /\ fst (intersector (Grid.filler 1 false) Grid.corner "7"%string) = false.
Proof.
  assert (Hfree : error_free (Grid.filler 1 false) Grid.corner)
    by (now apply error_free_grid).
  split; [exact Hfree|]. split; [reflexivity|].
  apply (rejected_cell (Grid.filler 1 false) Grid.corner FillIntersects 10
                       "7"%string 1 Hfree); reflexivity.
Defined.

(** The statement of C7 fails in [FillContains] mode: the search from the
    root visits the cell 8, which is at the maximum precision, and drops
    it, yet the polygon intersects it. *)
Lemma rejected_cell_may_intersect :
  error_free (Grid.filler 1 false) Grid.corner
  /\ visits (Grid.filler 1 false) Grid.corner FillContains 10 2 "" "8"
  /\ computeVariableHashes (Grid.filler 1 false) 1 Grid.corner
                           FillContains "8" 10
     = Some (Nil, None)
  /\ intersector (Grid.filler 1 false) Grid.corner "8"%string = (true, None).
Proof.
  split; [now apply error_free_grid|].
  split; [|split; reflexivity].
  eapply (visits_child _ _ _ _ 1 ""%string
            ["0"; "1"; "2"; "3"; "4"; "5"; "6"; "7"]%string "8"%string).
  - repeat split. vm_compute. discriminate.
  - reflexivity.
  - vm_compute. reflexivity.
  - apply visits_here.
Qed.

(** C9. From a cell no longer than the maximum precision the search
    returns, whatever the polygon and the predicates: one result [r] is
    what every call with more fuel than [maxPrecision - len(c)], the depth
    left below the cell, returns. *)
Theorem computeVariableHashes_terminates {Polygon E : Type}
    (f : RecursiveFiller Polygon E) (fence : Polygon) (mode : FillMode)
    (maxHashes : Z) (c : string) :
  0 <= maxPrecision f ->
  strlen c <= maxPrecision f ->
  exists r,
    forall fuel,
      (Z.to_nat (maxPrecision f - strlen c) < fuel)%nat ->
      computeVariableHashes f fuel fence mode c maxHashes = Some r.
Proof.
  intros _ Hle.
  destruct (computeVariableHashes_returns f (S (depth_below f c)) fence mode c
              maxHashes Hle (Nat.lt_succ_diag_r _)) as [r Hr].
  exists r. intros fuel Hfuel.
  eapply computeVariableHashes_mono; [|exact Hr]. unfold depth_below. lia.
Qed.

Lemma computeVariableHashes_terminates_witness :
  0 <= maxPrecision (Grid.filler 1 false)
  /\ strlen "" <= maxPrecision (Grid.filler 1 false)
  /\ exists r,
      forall fuel,
        (Z.to_nat (maxPrecision (Grid.filler 1 false) - strlen "") < fuel)%nat ->
        computeVariableHashes (Grid.filler 1 false) fuel Grid.corner
                              FillIntersects "" 10 = Some r.
Proof.
  split; [simpl; lia|]. split; [vm_compute; discriminate|].
  apply computeVariableHashes_terminates; [simpl; lia | vm_compute; discriminate].
Defined.

(** ** The expansion to the maximum precision *)

Lemma rangeAlphabet_ext {E : Type} (call call' : string -> option (result E))
    (hash : string) (maxHashes : Z) :
  (forall x, call x = call' x) ->
  forall syms acc,
    rangeAlphabet call hash maxHashes syms acc
    = rangeAlphabet call' hash maxHashes syms acc.
Proof.
  intros Hext. induction syms as [|next rest IH]; intros acc; simpl.
  - reflexivity.
  - rewrite Hext. loop_turn; try reflexivity.
    cap_check; [reflexivity|]. cap_check; [reflexivity|]. apply IH.
Qed.

Lemma Forall2_map_r {A B : Type} (R : A -> B -> Prop) (g : A -> B)
    (l : list A) :
  (forall a, In a l -> R a (g a)) -> Forall2 R l (map g l).
Proof.
  induction l as [|a l IH]; intros H; simpl; constructor.
  - apply H. now left.
  - apply IH. intros b Hb. apply H. now right.
Qed.

Lemma symbolSequences_S (n : nat) :
  symbolSequences (S n)
  = flat_map (fun s => map (String.append s) (symbolSequences n))
             geohashBase32Alphabet.
Proof. reflexivity. Qed.

Lemma symbolSequences_length (n : nat) :
  Z.of_nat (List.length (symbolSequences n)) = 32 ^ Z.of_nat n.
Proof.
  induction n as [|n IH]; [reflexivity|].
  rewrite symbolSequences_S.
  rewrite flat_map_constant_length with (c := List.length (symbolSequences n)).
  - rewrite alphabet_length, Nat2Z.inj_mul, IH.
    rewrite (Nat2Z.inj_succ n), Z.pow_succ_r; lia.
  - intros s _. apply length_map.
Qed.

Lemma symbolSequences_strlen (n : nat) (t : string) :
  In t (symbolSequences n) -> strlen t = Z.of_nat n.
Proof.
  revert t. induction n as [|n IH]; intros t Ht.
  - destruct Ht as [<-|[]]. reflexivity.
  - rewrite symbolSequences_S in Ht. apply in_flat_map in Ht.
    destruct Ht as (s & Hs & Ht). apply in_map_iff in Ht.
    destruct Ht as (t' & <- & Ht').
    rewrite strlen_app, (strlen_symbol s Hs), (IH t' Ht'). lia.
Qed.

(** The sequences below the children of [h], child after child, are the
    sequences below [h]. *)
Lemma children_sequences (h : string) (seqs syms : list string) :
  List.concat
    (map elems
         (map (fun s => Slice (map (String.append (h ++ s)) seqs)) syms))
  = map (String.append h)
        (flat_map (fun s => map (String.append s) seqs) syms).
Proof.
  induction syms as [|s syms IH]; simpl; [reflexivity|].
  rewrite IH, map_app, map_map. f_equal.
  apply map_ext. intros t. apply string_app_assoc.
Qed.

Section Expansion.

Context {Polygon E : Type}.
Variable f : RecursiveFiller Polygon E.

Lemma extendHashToMaxPrecision_at_depth :
  forall d h fuel maxHashes,
    strlen h + Z.of_nat d = maxPrecision f ->
    (d < fuel)%nat ->
    32 ^ Z.of_nat d <= maxHashes ->
    extendHashToMaxPrecision f fuel h maxHashes
    = Some (Slice (map (String.append h) (symbolSequences d)), None).
Proof.
  induction d as [|d IH]; intros h fuel maxHashes Hlen Hfuel Hcap;
    (destruct fuel as [|fuel]; [lia|]);
    rewrite extendHashToMaxPrecision_S.
  - rewrite (proj2 (Z.eqb_eq _ _)) by lia.
    simpl. now rewrite string_app_nil_r.
  - rewrite (proj2 (Z.eqb_neq _ _)) by lia.
    assert (Hpow : 32 ^ Z.of_nat (S d) = 32 * 32 ^ Z.of_nat d)
      by (rewrite Nat2Z.inj_succ, Z.pow_succ_r; lia).
    assert (Hpos : 0 < 32 ^ Z.of_nat d) by (apply Z.pow_pos_nonneg; lia).
    rewrite (rangeAlphabet_fits _ _ _ _
               (map (fun s => Slice (map (String.append (h ++ s))
                                         (symbolSequences d)))
                    geohashBase32Alphabet) []).
    + rewrite children_sequences, <- symbolSequences_S. reflexivity.
    + apply Forall2_map_r. intros s Hs.
      apply IH; [rewrite (strlen_child h s Hs) | |]; lia.
    + unfold total.
      rewrite children_sequences, <- symbolSequences_S, length_map,
        symbolSequences_length.
      simpl List.length. lia.
Qed.

(** The expansion does not look at the predicates of the filler. *)
Lemma extendHashToMaxPrecision_no_predicate
    (f' : RecursiveFiller Polygon E) :
  maxPrecision f' = maxPrecision f ->
  forall fuel h maxHashes,
    extendHashToMaxPrecision f' fuel h maxHashes
    = extendHashToMaxPrecision f fuel h maxHashes.
Proof.
  intros Hp. induction fuel as [|fuel IH]; intros h maxHashes;
    [reflexivity|].
  rewrite !extendHashToMaxPrecision_S, Hp.
  destruct (strlen h =? maxPrecision f); [reflexivity|].
  apply rangeAlphabet_ext. intros x. apply IH.
Qed.

End Expansion.

(** C5. For a cell [h] no longer than the maximum precision and fuel for
    the depth left below it: when [h] is at the maximum precision,
    [extendHashToMaxPrecision] returns [[h]]; when
    [32 ^ (maxPrecision - len(h))] is at most [maxHashes], it returns [h]
    followed by each sequence of [maxPrecision - len(h)] symbols, in
    depth-first alphabet order, which are that many strings, each of
    length [maxPrecision]; and what it returns is the same for any other
    pair of predicates. *)
Theorem extendHashToMaxPrecision_enumerates {Polygon E : Type}
    (f : RecursiveFiller Polygon E) (h : string) (maxHashes : Z)
    (fuel : nat) :
  strlen h <= maxPrecision f ->
  (Z.to_nat (maxPrecision f - strlen h) < fuel)%nat ->
  let expansion :=
    map (String.append h)
        (symbolSequences (Z.to_nat (maxPrecision f - strlen h))) in
  (strlen h = maxPrecision f ->
   extendHashToMaxPrecision f fuel h maxHashes = Some (Slice [h], None))
  /\ (32 ^ (maxPrecision f - strlen h) <= maxHashes ->
      extendHashToMaxPrecision f fuel h maxHashes
      = Some (Slice expansion, None)
      /\ Z.of_nat (List.length expansion) = 32 ^ (maxPrecision f - strlen h)
      /\ forall x, In x expansion -> strlen x = maxPrecision f)
  /\ (forall contains intersects : predicate Polygon E,
         extendHashToMaxPrecision
           {| maxPrecision := maxPrecision f;
              fixedPrecision := fixedPrecision f;
              container := contains; intersector := intersects |}
           fuel h maxHashes
         = extendHashToMaxPrecision f fuel h maxHashes).
Proof.
  intros Hle Hfuel expansion. subst expansion.
  set (d := Z.to_nat (maxPrecision f - strlen h)) in *.
  assert (Hd : Z.of_nat d = maxPrecision f - strlen h) by (subst d; lia).
  split; [|split].
  - intros Heq. destruct fuel as [|fuel]; [lia|].
    rewrite extendHashToMaxPrecision_S.
    now rewrite (proj2 (Z.eqb_eq _ _) Heq).
  - intros Hcap. rewrite <- Hd in *. split; [|split].
    + apply extendHashToMaxPrecision_at_depth; lia.
    + rewrite length_map. apply symbolSequences_length.
    + intros x Hx. apply in_map_iff in Hx. destruct Hx as (t & <- & Ht).
      rewrite strlen_app, (symbolSequences_strlen d t Ht). lia.
  - intros contains intersects.
    now apply extendHashToMaxPrecision_no_predicate.
Qed.

Lemma extendHashToMaxPrecision_enumerates_witness :
  strlen "9q8yy" <= maxPrecision (Grid.filler 6 true)
  /\ (Z.to_nat (maxPrecision (Grid.filler 6 true) - strlen "9q8yy") < 2)%nat
  /\ 32 ^ (maxPrecision (Grid.filler 6 true) - strlen "9q8yy") <= 1000
  /\ extendHashToMaxPrecision (Grid.filler 6 true) 2 "9q8yy" 1000
     = Some (Slice (map (String.append "9q8yy") (symbolSequences 1)), None).
Proof.
  assert (Hle : strlen "9q8yy" <= maxPrecision (Grid.filler 6 true))
    by (vm_compute; discriminate).
  assert (Hfuel : (Z.to_nat (maxPrecision (Grid.filler 6 true)
                             - strlen "9q8yy") < 2)%nat)
    by (vm_compute; lia).
  assert (Hcap : 32 ^ (maxPrecision (Grid.filler 6 true) - strlen "9q8yy")
                 <= 1000)
    by (vm_compute; discriminate).
  split; [exact Hle|]. split; [exact Hfuel|]. split; [exact Hcap|].
  destruct (extendHashToMaxPrecision_enumerates
              (Grid.filler 6 true) "9q8yy"%string 1000 2 Hle Hfuel)
    as (_ & Hexp & _).
  exact (proj1 (Hexp Hcap)).
Defined.

(** ** Failures and the cap *)

Section Failure.

Context {Polygon E : Type}.
Variable f : RecursiveFiller Polygon E.

Lemma extendHashToMaxPrecision_fails :
  forall fuel h maxHashes r e,
    extendHashToMaxPrecision f fuel h maxHashes = Some (r, Some e) ->
    r = Nil /\ over_cap maxHashes e.
Proof.
  induction fuel as [|fuel IH]; intros h maxHashes r e H; [discriminate|].
  rewrite extendHashToMaxPrecision_S in H.
  destruct (strlen h =? maxPrecision f); [discriminate|].
  apply rangeAlphabet_fails in H.
  destruct H as [-> [(s & o & _ & Hs)|Hcap]]; split; auto.
  now apply IH in Hs.
Qed.

Lemma computeVariableHashes_fails :
  forall fuel fence mode c maxHashes r e,
    computeVariableHashes f fuel fence mode c maxHashes = Some (r, Some e) ->
    r = Nil
    /\ ((exists c', fails_at f fence c' e) \/ over_cap maxHashes e).
Proof.
  induction fuel as [|fuel IH]; intros fence mode c maxHashes r e H;
    [discriminate|].
  rewrite computeVariableHashes_S in H.
  predicate_calls f fence c; cbn [negb] in H.
  - inversion H; subst. split; [reflexivity|]. left. exists c. left.
    now rewrite Hcont.
  - discriminate.
  - inversion H; subst. split; [reflexivity|]. left. exists c. right.
    now rewrite Hinter.
  - destruct (strlen c =? maxPrecision f).
    + destruct (mode =? FillIntersects); discriminate.
    + apply rangeAlphabet_fails in H.
      destruct H as [-> [(s & o & _ & Hs)|Hcap]]; split; auto.
      now apply IH in Hs.
  - discriminate.
Qed.


Lemma rangeHashes_fails :
  forall fuel maxHashes hashes out r e,
    rangeHashes f fuel maxHashes hashes out = Some (r, Some e) ->
    r = Nil /\ over_cap maxHashes e.
Proof.
  intros fuel maxHashes hashes.
  induction hashes as [|h rest IH]; intros out r e H; simpl in H;
    [discriminate|].
  loop_turn; try discriminate.
  - inversion H; subst. split; [reflexivity|].
    now apply extendHashToMaxPrecision_fails in Hcall.
  - cap_check.
    + inversion H; subst. split; [reflexivity|]. now eexists.
    + now apply IH in H.
Qed.

(** A loop of [Fill] that completes had every expansion return without
    error, hands back their strings in order after the accumulator, and,
    if it made a turn at all, stays within the cap. *)
Lemma rangeHashes_completes :
  forall fuel maxHashes hashes acc r,
    rangeHashes f fuel maxHashes hashes (Slice acc) = Some (r, None) ->
    exists exts,
      Forall2 (fun h x =>
                 extendHashToMaxPrecision f fuel h maxHashes
                 = Some (x, None)) hashes exts
      /\ r = Slice (acc ++ List.concat (map elems exts))
      /\ (hashes <> [] -> len r <= maxHashes).
Proof.
  intros fuel maxHashes hashes.
  induction hashes as [|h rest IH]; intros acc r H; simpl in H.
  - inversion H; subst. exists []. split; [constructor|].
    split; [simpl; now rewrite app_nil_r | intros C; now destruct C].
  - loop_turn; try discriminate.
    rewrite append_Slice in H. cap_check; [discriminate|].
    destruct (IH _ _ H) as (exts & Hret & -> & Hle).
    exists (out :: exts). split; [now constructor|].
    split; [simpl; now rewrite app_assoc|].
    intros _. destruct rest as [|h' rest'].
    + inversion Hret; subst. simpl. rewrite app_nil_r. exact Hcap.
    + apply Hle. discriminate.
Qed.

Lemma Fill_fails :
  forall fuel fence mode maxHashes r e,
    Fill f fuel fence mode maxHashes = Some (r, Some e) ->
    r = Nil
    /\ ((exists c, fails_at f fence c e) \/ over_cap maxHashes e).
Proof.
  unfold Fill. intros fuel fence mode maxHashes r e H.
  destruct (computeVariableHashes f fuel fence mode "" maxHashes)
    as [[hashes [err|]]|] eqn:Hsearch; [| |discriminate].
  - inversion H; subst.
    apply computeVariableHashes_fails in Hsearch. tauto.
  - destruct (negb (fixedPrecision f)); [discriminate|].
    cbv zeta in H. cap_check.
    + inversion H; subst. split; [reflexivity|]. right. now eexists.
    + apply rangeHashes_fails in H. tauto.
Qed.

End Failure.

(** *** The comparison that fails *)



Section Exceeded.

Context {Polygon E : Type}.
Variable f : RecursiveFiller Polygon E.





End Exceeded.




(** C8, as the code has it. The comparison before the loop of [Fill] has
    no effect when [maxHashes] is not negative, nor when the output has
    variable precision: [Fill] is then the same function without it. With
    a negative [maxHashes] and fixed precision it is what [Fill] returns
    whenever the search returns a slice: the cap error with the count 0. *)
Theorem Fill_precheck {Polygon E : Type}
    (f : RecursiveFiller Polygon E) (fence : Polygon) (mode : FillMode)
    (maxHashes : Z) (fuel : nat) :
  (0 <= maxHashes \/ fixedPrecision f = false ->
   Fill f fuel fence mode maxHashes
   = Fill_without_precheck f fuel fence mode maxHashes)
  /\ (maxHashes < 0 ->
      fixedPrecision f = true ->
      forall hashes,
        computeVariableHashes f fuel fence mode "" maxHashes
        = Some (hashes, None) ->
        Fill f fuel fence mode maxHashes
        = Some (Nil, Some (HashLimit maxHashes 0))).
Proof.
  unfold Fill, Fill_without_precheck. split.
  - intros Hcond.
    destruct (computeVariableHashes f fuel fence mode "" maxHashes)
      as [[hashes [err|]]|]; try reflexivity.
    destruct (fixedPrecision f); cbn [negb]; [|reflexivity].
    cbv zeta. cap_check; [|reflexivity].
    rewrite len_Slice in Hcap. simpl in Hcap.
    destruct Hcond as [Hpos|Hvar]; [lia | discriminate].
  - intros Hneg Hfixed hashes ->. rewrite Hfixed. cbn [negb]. cbv zeta.
    cap_check; [reflexivity|].
    rewrite len_Slice in Hcap. simpl in Hcap. lia.
Qed.

Lemma Fill_precheck_witness :
  (0 <= 40 \/ fixedPrecision (Grid.filler 1 true) = false)
  /\ Fill (Grid.filler 1 true) 2 Grid.globe FillContains 40
     = Fill_without_precheck (Grid.filler 1 true) 2 Grid.globe
                             FillContains 40.
Proof.
  assert (Hcond : 0 <= 40 \/ fixedPrecision (Grid.filler 1 true) = false)
    by (left; lia).
  split; [exact Hcond|].
  exact (proj1 (Fill_precheck (Grid.filler 1 true) Grid.globe FillContains
                              40 2) Hcond).
Defined.

(** The statement of C8 fails under a negative cap: for a polygon that
    overlaps nothing and fixed precision, [Fill] returns the cap error,
    and the same function without the comparison returns an empty slice. *)
Lemma Fill_precheck_fires :
  Fill (Grid.filler 6 true) 1 Grid.nowhere FillIntersects (-1)
  = Some (Nil, Some (HashLimit (-1) 0))
  /\ Fill_without_precheck (Grid.filler 6 true) 1 Grid.nowhere
                           FillIntersects (-1)
     = Some (Slice [], None)
  /\ Fill (Grid.filler 6 true) 1 Grid.nowhere FillIntersects (-1)
     <> Fill_without_precheck (Grid.filler 6 true) 1 Grid.nowhere
                              FillIntersects (-1).
Proof.
  split; [reflexivity|]. split; [reflexivity|]. vm_compute. discriminate.
Qed.

(** ** Errors of the predicates *)

Section Abort.

Context {Polygon E : Type}.
Variable f : RecursiveFiller Polygon E.
Variable fence : Polygon.

(** A call whose predicates fail returns the error it got. *)
Lemma computeVariableHashes_fails_here (fuel : nat) (mode : FillMode)
    (c : string) (maxHashes : Z) (e : error E) :
  fails_at f fence c e ->
  computeVariableHashes f (S fuel) fence mode c maxHashes
  = Some (Nil, Some e).
Proof.
  intros Hfail. rewrite computeVariableHashes_S.
  destruct Hfail as [Hc|[Hc Hi]].
  - destruct (container f fence c) as [cont cerr]. simpl in Hc.
    now subst cerr.
  - rewrite Hc. destruct (intersector f fence c) as [inter ierr].
    simpl in Hi. now subst ierr.
Qed.

(** The error met at a visited cell is what the search returns. *)
Lemma computeVariableHashes_aborts (mode : FillMode) (maxHashes : Z) :
  forall fuel c c' e,
    visits f fence mode maxHashes fuel c c' ->
    fails_at f fence c' e ->
    computeVariableHashes f fuel fence mode c maxHashes
    = Some (Nil, Some e).
Proof.
  intros fuel c c' e Hvisit Hfail.
  induction Hvisit as [fuel c|fuel c before next after hashes c'
                                (Hcont & Hinter & Hlen) Hsplit Hbefore _ IH].
  - now apply computeVariableHashes_fails_here.
  - rewrite computeVariableHashes_S, Hcont, Hinter. cbn [negb].
    rewrite (proj2 (Z.eqb_neq _ _) Hlen), Hsplit.
    rewrite rangeAlphabet_app, Hbefore. simpl.
    now rewrite (IH Hfail).
Qed.

End Abort.

(** C6. When a predicate returns an error on a cell that the search
    visits, [Fill] returns nil and that error; and whenever [Fill] returns
    an error it returns nil with it, the error being one that a predicate
    returned on some cell or the cap error. *)
Theorem Fill_aborts {Polygon E : Type}
    (f : RecursiveFiller Polygon E) (fence : Polygon) (mode : FillMode)
    (maxHashes : Z) (fuel : nat) :
  (forall c e,
      visits f fence mode maxHashes fuel "" c ->
      fails_at f fence c e ->
      Fill f fuel fence mode maxHashes = Some (Nil, Some e))
  /\ (forall r e,
         Fill f fuel fence mode maxHashes = Some (r, Some e) ->
         r = Nil
         /\ ((exists c, fails_at f fence c e)
             \/ exists have, e = HashLimit maxHashes have /\ maxHashes < have)).
Proof.
  split.
  - intros c e Hvisit Hfail. unfold Fill.
    now rewrite (computeVariableHashes_aborts f fence mode maxHashes
                   fuel ""%string c e Hvisit Hfail).
  - intros r e H. now apply Fill_fails in H.
Qed.

Lemma Fill_aborts_witness :
  visits (Grid.filler 1 false) Grid.malformed FillIntersects 10 2 "" "1"
  /\ fails_at (Grid.filler 1 false) Grid.malformed "1"
              (External "1"%string)
  /\ Fill (Grid.filler 1 false) 2 Grid.malformed FillIntersects 10
     = Some (Nil, Some (External "1"%string)).
Proof.
  assert (Hvisit : visits (Grid.filler 1 false) Grid.malformed
                          FillIntersects 10 2 "" "1").
  { eapply (visits_child _ _ _ _ 1 ""%string ["0"%string] "1"%string).
    - split; [reflexivity|]. split; [reflexivity|].
      vm_compute. discriminate.
    - reflexivity.
    - vm_compute. reflexivity.
    - apply visits_here. }
  assert (Hfail : fails_at (Grid.filler 1 false) Grid.malformed "1"
                           (External "1"%string))
    by (left; reflexivity).
  split; [exact Hvisit|]. split; [exact Hfail|].
  exact (proj1 (Fill_aborts (Grid.filler 1 false) Grid.malformed
                            FillIntersects 10 2)
               "1"%string (External "1"%string) Hvisit Hfail).
Defined.

(** ** The cells of a result *)

Section Children.

Context {A : Type}.
Variable R : A -> slice -> Prop.

(** A string among the results of the children is in the result of one
    of them. *)
Lemma in_children (syms : list A) (outs : list slice) (x : string) :
  Forall2 R syms outs ->
  In x (List.concat (map elems outs)) ->
  exists s o, In s syms /\ R s o /\ In x (elems o).
Proof.
  induction 1 as [|s o syms outs Hso _ IH]; simpl; intros Hx.
  - destruct Hx.
  - apply in_app_or in Hx. destruct Hx as [Hx|Hx].
    + exists s, o. auto.
    + destruct (IH Hx) as (s' & o' & Hs' & Hso' & Hx').
      exists s', o'. auto.
Qed.

(** Every symbol has its result among those of the children. *)
Lemma children_at (syms : list A) (outs : list slice) (s : A) :
  Forall2 R syms outs -> In s syms -> exists o, R s o /\ In o outs.
Proof.
  induction 1 as [|s' o' syms outs Hso _ IH]; simpl; intros Hs.
  - destruct Hs.
  - destruct Hs as [->|Hs].
    + exists o'. auto.
    + destruct (IH Hs) as (o & Ho & Hin). exists o. auto.
Qed.

End Children.

Lemma prefix_refl (x : string) : String.prefix x x = true.
Proof. rewrite <- (string_app_nil_r x) at 2. apply prefix_app. Qed.

Lemma ForallOrdPairs_app {A : Type} (R : A -> A -> Prop) (l1 l2 : list A) :
  ForallOrdPairs R l1 -> ForallOrdPairs R l2 ->
  (forall x y, In x l1 -> In y l2 -> R x y) ->
  ForallOrdPairs R (l1 ++ l2).
Proof.
  induction 1 as [|a l1 Ha _ IH]; intros H2 Hcross; simpl; [exact H2|].
  constructor.
  - apply Forall_app. split; [exact Ha|].
    apply Forall_forall. intros y Hy. apply Hcross; [now left | exact Hy].
  - apply IH; [exact H2|]. intros x y Hx Hy. apply Hcross; [now right|exact Hy].
Qed.

Lemma apart_NoDup (l : list string) : ForallOrdPairs apart l -> NoDup l.
Proof.
  induction 1 as [|a l Ha _ IH]; constructor; [|exact IH].
  intros Hin. rewrite Forall_forall in Ha. destruct (Ha a Hin) as [C _].
  rewrite prefix_refl in C. discriminate.
Qed.

Lemma apart_pairs (l : list string) (x y : string) :
  ForallOrdPairs apart l -> In x l -> In y l -> x <> y ->
  String.prefix x y = false.
Proof.
  intros Hl Hx Hy Hne.
  destruct (ForallOrdPairs_In Hl x y Hx Hy) as [C|[H|H]];
    [now destruct Hne | apply H | apply H].
Qed.

(** The results of the children of [c] along distinct symbols, each made
    of cells below its child that are apart, are apart as a whole. *)
Lemma children_apart (R : string -> slice -> Prop) (c : string) :
  forall syms outs,
    Forall2 R syms outs ->
    (forall s, In s syms -> In s geohashBase32Alphabet) ->
    ForallOrdPairs (fun s t : string => s <> t) syms ->
    (forall s o, In s syms -> R s o ->
                 Forall (fun x => String.prefix (c ++ s) x = true) (elems o)
                 /\ ForallOrdPairs apart (elems o)) ->
    ForallOrdPairs apart (List.concat (map elems outs)).
Proof.
  induction 1 as [|s o syms outs Hso Hrest IH]; intros Hall Hdist Hchild;
    simpl; [constructor|].
  inversion Hdist as [|? ? Hs Hdist']; subst.
  apply ForallOrdPairs_app.
  - apply (Hchild s o); [now left | exact Hso].
  - apply IH; [|exact Hdist'|].
    + intros t Ht. apply Hall. now right.
    + intros t o' Ht. apply Hchild. now right.
  - intros x y Hx Hy.
    destruct (in_children R syms outs y Hrest Hy) as (t & o' & Ht & Hto & Hy').
    destruct (Hchild s o (or_introl eq_refl) Hso) as [Hbelow _].
    destruct (Hchild t o' (or_intror Ht) Hto) as [Hbelow' _].
    rewrite Forall_forall in Hbelow, Hbelow', Hs.
    destruct (prefix_inv _ _ (Hbelow x Hx)) as [u ->].
    destruct (prefix_inv _ _ (Hbelow' y Hy')) as [v ->].
    assert (Hs' : In s geohashBase32Alphabet) by (apply Hall; now left).
    assert (Ht' : In t geohashBase32Alphabet) by (apply Hall; now right).
    split; apply prefix_siblings; auto.
    intros ->. now apply (Hs s Ht).
Qed.

Section Cells.

Context {Polygon E : Type}.
Variable f : RecursiveFiller Polygon E.
Variable fence : Polygon.

(** The cells that a search from [c] returns are below [c] and apart;
    in a mode other than [FillIntersects] the polygon contains each. *)
Lemma computeVariableHashes_cells :
  forall fuel mode c maxHashes r,
    computeVariableHashes f fuel fence mode c maxHashes = Some (r, None) ->
    Forall (fun x => String.prefix c x = true) (elems r)
    /\ ForallOrdPairs apart (elems r)
    /\ (mode <> FillIntersects ->
        Forall (fun x => container f fence x = (true, None)) (elems r)).
Proof.
  induction fuel as [|fuel IH]; intros mode c maxHashes r H;
    [discriminate|].
  rewrite computeVariableHashes_S in H.
  assert (Hone : Forall (fun x => String.prefix c x = true) [c]
                 /\ ForallOrdPairs apart [c]).
  { split; repeat constructor. apply prefix_refl. }
  predicate_calls f fence c; cbn [negb] in H; try discriminate.
  - inversion H; subst. simpl. split; [apply Hone|].
    split; [apply Hone|]. intros _. now repeat constructor.
  - destruct (strlen c =? maxPrecision f).
    + destruct (Z.eqb_spec mode FillIntersects) as [Hmode|Hmode];
        inversion H; subst; simpl.
      * split; [apply Hone|]. split; [apply Hone|].
        intros C. now destruct C.
      * split; [constructor|]. split; constructor.
    + apply rangeAlphabet_completes in H.
      destruct H as (outs & Hret & -> & _). simpl.
      split; [|split].
      * apply Forall_forall. intros x Hx.
        destruct (in_children _ _ _ x Hret Hx) as (s & o & _ & Hso & Hxo).
        destruct (IH _ _ _ _ Hso) as (Hbelow & _).
        rewrite Forall_forall in Hbelow.
        destruct (prefix_inv _ _ (Hbelow x Hxo)) as [t ->].
        rewrite string_app_assoc. apply prefix_app.
      * eapply (children_apart _ c);
          [exact Hret | auto | apply alphabet_distinct |].
        intros s o _ Hso. destruct (IH _ _ _ _ Hso) as (Hb & Ha & _).
        now split.
      * intros Hmode. apply Forall_forall. intros x Hx.
        destruct (in_children _ _ _ x Hret Hx) as (s & o & _ & Hso & Hxo).
        destruct (IH _ _ _ _ Hso) as (_ & _ & Hin).
        specialize (Hin Hmode). rewrite Forall_forall in Hin. now apply Hin.
  - inversion H; subst. simpl. split; [constructor|]. split; constructor.
Qed.

(** Every cell of a search in any mode is a cell of the search in
    [FillIntersects] mode, when both return a slice. *)
Lemma computeVariableHashes_modes :
  forall fuel mode c maxHashes r r',
    computeVariableHashes f fuel fence mode c maxHashes = Some (r, None) ->
    computeVariableHashes f fuel fence FillIntersects c maxHashes
    = Some (r', None) ->
    incl (elems r) (elems r').
Proof.
  induction fuel as [|fuel IH]; intros mode c maxHashes r r' H H';
    [discriminate|].
  rewrite computeVariableHashes_S in H, H'.
  predicate_calls f fence c; cbn [negb] in H, H'; try discriminate.
  - inversion H; inversion H'; subst. apply incl_refl.
  - destruct (strlen c =? maxPrecision f).
    + change (FillIntersects =? FillIntersects) with true in H'.
      destruct (mode =? FillIntersects); inversion H; inversion H'; subst.
      * apply incl_refl.
      * intros x Hx. destruct Hx.
    + apply rangeAlphabet_completes in H, H'.
      destruct H as (outs & Hret & -> & _).
      destruct H' as (outs' & Hret' & -> & _). simpl.
      intros x Hx.
      destruct (in_children _ _ _ x Hret Hx) as (s & o & Hs & Hso & Hxo).
      pose proof (children_at _ _ _ s Hret' Hs) as Hs'.
      destruct Hs' as (o' & Hso' & Hin').
      apply in_concat. exists (elems o'). split; [now apply in_map|].
      exact (IH _ _ _ _ _ Hso Hso' x Hxo).
  - inversion H; inversion H'; subst. apply incl_refl.
Qed.

End Cells.

(** C3. The cells of a slice that the search returns are prefix-disjoint:
    no cell occurs twice and no cell is a prefix of another one (so none
    extends another one either); in [FillContains] mode the polygon
    contains every cell returned. *)
Theorem computeVariableHashes_prefix_disjoint {Polygon E : Type}
    (f : RecursiveFiller Polygon E) (fence : Polygon) (mode : FillMode)
    (maxHashes : Z) (c : string) (fuel : nat) (hashes : slice) :
  computeVariableHashes f fuel fence mode c maxHashes = Some (hashes, None) ->
  NoDup (elems hashes)
  /\ (forall x y,
         In x (elems hashes) -> In y (elems hashes) -> x <> y ->
         String.prefix x y = false)
  /\ (mode = FillContains ->
      forall x, In x (elems hashes) -> container f fence x = (true, None)).
Proof.
  intros H. apply computeVariableHashes_cells in H.
  destruct H as (_ & Hapart & Hin). split; [|split].
  - now apply apart_NoDup.
  - intros x y. now apply apart_pairs.
  - intros ->. apply Forall_forall. apply Hin. discriminate.
Qed.

Lemma computeVariableHashes_prefix_disjoint_witness :
  computeVariableHashes (Grid.filler 2 false) 3 Grid.notch FillContains "" 10
  = Some (Slice ["8z"%string; "9"%string], None)
  /\ String.prefix "8z" "9" = false
  /\ container (Grid.filler 2 false) Grid.notch "8z"%string = (true, None).
Proof.
  assert (Hrun : computeVariableHashes (Grid.filler 2 false) 3 Grid.notch
                                       FillContains "" 10
                 = Some (Slice ["8z"%string; "9"%string], None))
    by (vm_compute; reflexivity).
  destruct (computeVariableHashes_prefix_disjoint
              (Grid.filler 2 false) Grid.notch FillContains 10 ""%string 3
              (Slice ["8z"%string; "9"%string]) Hrun) as (_ & Hpairs & Hin).
  split; [exact Hrun|]. split.
  - apply Hpairs; simpl; auto. discriminate.
  - apply Hin; simpl; auto.
Defined.

(** C4. When [Fill] returns a list in [FillContains] mode and a list in
    [FillIntersects] mode, for the same filler, polygon and cap, every cell
    of the first is a cell of the second. *)
Theorem Fill_modes {Polygon E : Type}
    (f : RecursiveFiller Polygon E) (fence : Polygon) (maxHashes : Z)
    (fuel fuel' : nat) (hashes hashes' : slice) :
  Fill f fuel fence FillContains maxHashes = Some (hashes, None) ->
  Fill f fuel' fence FillIntersects maxHashes = Some (hashes', None) ->
  forall x, In x (elems hashes) -> In x (elems hashes').
Proof.
  intros H H'.
  apply (Fill_mono f fuel (Nat.max fuel fuel')) in H; [|lia].
  apply (Fill_mono f fuel' (Nat.max fuel fuel')) in H'; [|lia].
  revert H H'. generalize (Nat.max fuel fuel'). clear fuel fuel'.
  intros fuel H H'. unfold Fill in H, H'.
  destruct (computeVariableHashes f fuel fence FillContains "" maxHashes)
    as [[found [err|]]|] eqn:Hsearch; try discriminate.
  destruct (computeVariableHashes f fuel fence FillIntersects "" maxHashes)
    as [[found' [err|]]|] eqn:Hsearch'; try discriminate.
  pose proof (computeVariableHashes_modes f fence _ _ _ _ _ _ Hsearch Hsearch')
    as Hincl.
  destruct (negb (fixedPrecision f)).
  - inversion H; inversion H'; subst. exact Hincl.
  - cbv zeta in H, H'. cap_check; [discriminate|].
    apply rangeHashes_completes in H, H'.
    destruct H as (exts & Hret & -> & _).
    destruct H' as (exts' & Hret' & -> & _). simpl.
    intros x Hx.
    destruct (in_children _ _ _ x Hret Hx) as (h & o & Hh & Hho & Hxo).
    destruct (children_at _ _ _ h Hret' (Hincl h Hh)) as (o' & Hho' & Hin').
    rewrite Hho in Hho'. inversion Hho'; subst o'.
    apply in_concat. exists (elems o). split; [now apply in_map | exact Hxo].
Qed.

Lemma Fill_modes_witness :
  Fill (Grid.filler 1 true) 2 Grid.corner FillContains 2
  = Some (Slice ["9"%string], None)
  /\ Fill (Grid.filler 1 true) 2 Grid.corner FillIntersects 2
     = Some (Slice ["8"%string; "9"%string], None)
  /\ In "9"%string (elems (Slice ["8"%string; "9"%string])).
Proof.
  split; [reflexivity|]. split; [reflexivity|].
  apply (Fill_modes (Grid.filler 1 true) Grid.corner 2 2 2
                    (Slice ["9"%string])
                    (Slice ["8"%string; "9"%string]) eq_refl eq_refl).
  simpl. auto.
Defined.

(** ** Which cells the search returns *)

Lemma string_app_inv_head (c a b : string) :
  (c ++ a = c ++ b)%string -> a = b.
Proof.
  induction c as [|x c IH]; simpl; intros H; [exact H|].
  inversion H. auto.
Qed.

Lemma string_app_empty (u v : string) :
  (u ++ v)%string = EmptyString -> v = EmptyString.
Proof. destruct u; simpl; [auto | discriminate]. Qed.

Lemma strlen_zero (t : string) : strlen t = 0 -> t = EmptyString.
Proof.
  destruct t; [reflexivity|]. unfold strlen. simpl String.length. lia.
Qed.

Lemma over_alphabet_String (a : ascii) (t : string) :
  over_alphabet (String a t)
  = existsb (String.eqb (String a EmptyString)) geohashBase32Alphabet
    && over_alphabet t.
Proof. reflexivity. Qed.

Lemma over_alphabet_symbol (s : string) :
  In s geohashBase32Alphabet -> over_alphabet s = true.
Proof.
  intros Hs. pose proof alphabet_symbols as Hall.
  rewrite Forall_forall in Hall. destruct (Hall s Hs) as [a ->].
  rewrite over_alphabet_String. apply andb_true_iff. split; [|reflexivity].
  apply existsb_exists.
  exists (String a EmptyString). split; [exact Hs | apply String.eqb_refl].
Qed.

Lemma over_alphabet_cons (a : ascii) (t : string) :
  over_alphabet (String a t) = true ->
  In (String a EmptyString) geohashBase32Alphabet /\ over_alphabet t = true.
Proof.
  rewrite over_alphabet_String. intros H.
  apply andb_true_iff in H. destruct H as [Ha Ht].
  split; [|exact Ht]. apply existsb_exists in Ha.
  destruct Ha as (s & Hs & Heq). apply String.eqb_eq in Heq. now subst s.
Qed.

Lemma over_alphabet_app (a b : string) :
  over_alphabet (a ++ b) = over_alphabet a && over_alphabet b.
Proof.
  induction a as [|x a IH]; [reflexivity|].
  change (String x a ++ b)%string with (String x (a ++ b)%string).
  now rewrite !over_alphabet_String, IH, andb_assoc.
Qed.

Section Returned.

Context {Polygon E : Type}.
Variable f : RecursiveFiller Polygon E.
Variable fence : Polygon.

(** What holds of each cell [h] that a search from [c] returns: it is [c]
    followed by symbols of the alphabet, the search accepts it as it is,
    it is within the maximum precision if [c] is, and every cell from [c]
    down to it, itself apart, was subdivided. *)
Lemma computeVariableHashes_each_cell :
  forall fuel mode c maxHashes r h,
    computeVariableHashes f fuel fence mode c maxHashes = Some (r, None) ->
    In h (elems r) ->
    exists t,
      h = (c ++ t)%string
      /\ over_alphabet t = true
      /\ accepted f fence mode h
      /\ (strlen c <= maxPrecision f -> strlen h <= maxPrecision f)
      /\ (forall u v,
             t = (u ++ v)%string -> v <> EmptyString ->
             subdivides f fence (c ++ u)).
Proof.
  induction fuel as [|fuel IH]; intros mode c maxHashes r h H Hh;
    [discriminate|].
  rewrite computeVariableHashes_S in H.
  assert (Hself : forall u v : string,
             EmptyString = (u ++ v)%string -> v <> EmptyString ->
             subdivides f fence (c ++ u)).
  { intros u v Huv Hv. symmetry in Huv. apply string_app_empty in Huv.
    now destruct Hv. }
  predicate_calls f fence c; cbn [negb] in H; try discriminate.
  - inversion H; subst. destruct Hh as [<-|[]].
    exists EmptyString. rewrite string_app_nil_r.
    split; [reflexivity|]. split; [reflexivity|].
    split; [now left|]. split; [auto | exact Hself].
  - destruct (Z.eqb_spec (strlen c) (maxPrecision f)) as [Hlen|Hlen].
    + destruct (Z.eqb_spec mode FillIntersects) as [Hmode|Hmode];
        inversion H; subst; [|destruct Hh].
      destruct Hh as [<-|[]].
      exists EmptyString. rewrite string_app_nil_r.
      split; [reflexivity|]. split; [reflexivity|].
      split; [right; auto|]. split; [auto | exact Hself].
    + apply rangeAlphabet_completes in H.
      destruct H as (outs & Hret & -> & _). simpl in Hh.
      destruct (in_children _ _ _ h Hret Hh) as (s & o & Hs & Hso & Hho).
      destruct (IH _ _ _ _ _ Hso Hho) as (t & -> & Ht & Hacc & Hprec & Hanc).
      exists (s ++ t)%string. split; [apply string_app_assoc|].
      split; [now rewrite over_alphabet_app, (over_alphabet_symbol s Hs)|].
      split; [exact Hacc|]. split.
      * intros Hle. apply Hprec. rewrite (strlen_child c s Hs). lia.
      * intros u v Huv Hv. destruct u as [|a u].
        -- rewrite string_app_nil_r. repeat split; assumption.
        -- pose proof alphabet_symbols as Hall. rewrite Forall_forall in Hall.
           destruct (Hall s Hs) as [b ->]. simpl in Huv.
           inversion Huv; subst.
           change (String a u) with (String a EmptyString ++ u)%string.
           rewrite <- string_app_assoc. now apply (Hanc u v).
  - inversion H; subst. destruct Hh.
Qed.

(** A polygon that intersects a cell intersects the cells above it. *)
Lemma intersects_upwards_path :
  intersects_upwards f fence ->
  forall t c,
    over_alphabet t = true ->
    fst (intersector f fence (c ++ t)%string) = true ->
    fst (intersector f fence c) = true.
Proof.
  intros Hup. induction t as [|a t IH]; intros c Ht H.
  - now rewrite string_app_nil_r in H.
  - apply over_alphabet_cons in Ht. destruct Ht as [Ha Ht].
    apply (Hup c _ Ha). apply (IH _ Ht).
    now rewrite string_app_assoc.
Qed.

(** The result of a search from [c] covers every cell below [c], within
    the maximum precision, that the polygon intersects and that the
    search accepts as it is. *)
Lemma computeVariableHashes_covers :
  intersects_upwards f fence ->
  forall fuel mode c maxHashes r t,
    computeVariableHashes f fuel fence mode c maxHashes = Some (r, None) ->
    over_alphabet t = true ->
    strlen (c ++ t) <= maxPrecision f ->
    fst (intersector f fence (c ++ t)%string) = true ->
    (fst (container f fence (c ++ t)%string) = true
     \/ (mode = FillIntersects /\ strlen (c ++ t) = maxPrecision f)) ->
    exists h, In h (elems r) /\ String.prefix h (c ++ t) = true.
Proof.
  intros Hup.
  induction fuel as [|fuel IH]; intros mode c maxHashes r t H Ht Hle Hi Hacc;
    [discriminate|].
  rewrite computeVariableHashes_S in H.
  predicate_calls f fence c; cbn [negb] in H; try discriminate.
  - inversion H; subst. exists c. split; [now left | apply prefix_app].
  - destruct (Z.eqb_spec (strlen c) (maxPrecision f)) as [Hlen|Hlen].
    + assert (t = EmptyString) as ->.
      { apply strlen_zero. rewrite strlen_app in Hle.
        unfold strlen in *. lia. }
      rewrite string_app_nil_r in *.
      destruct Hacc as [Hc|[-> _]].
      * rewrite Hcont in Hc. discriminate.
      * inversion H; subst. exists c. split; [now left | apply prefix_refl].
    + destruct t as [|a t].
      * rewrite string_app_nil_r in Hacc. destruct Hacc as [Hc|[_ Hc]].
        -- rewrite Hcont in Hc. discriminate.
        -- now destruct Hlen.
      * apply over_alphabet_cons in Ht. destruct Ht as [Ha Ht].
        change (String a t) with (String a EmptyString ++ t)%string in *.
        rewrite <- string_app_assoc in *.
        apply rangeAlphabet_completes in H.
        destruct H as (outs & Hret & -> & _).
        destruct (children_at _ _ _ _ Hret Ha) as (o & Hso & Hin).
        destruct (IH _ _ _ _ _ Hso Ht Hle Hi Hacc) as (h & Hh & Hpre).
        exists h. split; [|exact Hpre]. simpl.
        apply in_concat. exists (elems o). split; [now apply in_map | exact Hh].
  - apply (intersects_upwards_path Hup) in Hi; [|exact Ht].
    rewrite Hinter in Hi. discriminate.
Qed.

End Returned.

(** Every cell that the search returns is one that it accepts as it is:
    the polygon contains it, or, in [FillIntersects] mode, it is at the
    maximum precision and the polygon intersects it without containing
    it. *)
Theorem computeVariableHashes_sound {Polygon E : Type}
    (f : RecursiveFiller Polygon E) (fence : Polygon) (mode : FillMode)
    (maxHashes : Z) (c : string) (fuel : nat) (r : slice) (h : string) :
  computeVariableHashes f fuel fence mode c maxHashes = Some (r, None) ->
  In h (elems r) ->
  accepted f fence mode h.
Proof.
  intros H Hh.
  destruct (computeVariableHashes_each_cell f fence _ _ _ _ _ _ H Hh)
    as (t & _ & _ & Hacc & _). exact Hacc.
Qed.

Lemma computeVariableHashes_sound_witness :
  computeVariableHashes (Grid.filler 1 false) 2 Grid.corner FillIntersects
                        "" 2
  = Some (Slice ["8"%string; "9"%string], None)
  /\ In "8"%string (elems (Slice ["8"%string; "9"%string]))
  /\ accepted (Grid.filler 1 false) Grid.corner FillIntersects "8".
Proof.
  split; [reflexivity|]. split; [now left|].
  apply (computeVariableHashes_sound
           (Grid.filler 1 false) Grid.corner FillIntersects 2 ""%string 2
           (Slice ["8"%string; "9"%string]) "8"%string eq_refl).
  now left.
Defined.

(** Every cell that a search from a cell [c] within the maximum precision
    returns is [c] followed by symbols of the alphabet, and is within the
    maximum precision. *)
Theorem computeVariableHashes_within_precision {Polygon E : Type}
    (f : RecursiveFiller Polygon E) (fence : Polygon) (mode : FillMode)
    (maxHashes : Z) (c : string) (fuel : nat) (r : slice) (h : string) :
  strlen c <= maxPrecision f ->
  computeVariableHashes f fuel fence mode c maxHashes = Some (r, None) ->
  In h (elems r) ->
  strlen h <= maxPrecision f
  /\ exists t, h = (c ++ t)%string /\ over_alphabet t = true.
Proof.
  intros Hle H Hh.
  destruct (computeVariableHashes_each_cell f fence _ _ _ _ _ _ H Hh)
    as (t & Heq & Ht & _ & Hprec & _).
  split; [auto | now exists t].
Qed.

Lemma computeVariableHashes_within_precision_witness :
  strlen "" <= maxPrecision (Grid.filler 2 false)
  /\ computeVariableHashes (Grid.filler 2 false) 3 Grid.notch FillContains
                           "" 10
     = Some (Slice ["8z"%string; "9"%string], None)
  /\ strlen "8z" <= maxPrecision (Grid.filler 2 false).
Proof.
  assert (Hle : strlen "" <= maxPrecision (Grid.filler 2 false))
    by (vm_compute; discriminate).
  assert (Hrun : computeVariableHashes (Grid.filler 2 false) 3 Grid.notch
                                       FillContains "" 10
                 = Some (Slice ["8z"%string; "9"%string], None))
    by (vm_compute; reflexivity).
  split; [exact Hle|]. split; [exact Hrun|].
  apply (computeVariableHashes_within_precision
           (Grid.filler 2 false) Grid.notch FillContains 10 ""%string 3
           (Slice ["8z"%string; "9"%string]) "8z"%string Hle Hrun).
  now left.
Defined.

(** The search returns the largest cells it can: every cell [c ++ u] from
    the starting cell [c] down to a returned cell, that cell apart, is
    one that the polygon intersects without containing it. *)
Theorem computeVariableHashes_largest_cells {Polygon E : Type}
    (f : RecursiveFiller Polygon E) (fence : Polygon) (mode : FillMode)
    (maxHashes : Z) (c : string) (fuel : nat) (r : slice) (u v : string) :
  computeVariableHashes f fuel fence mode c maxHashes = Some (r, None) ->
  In ((c ++ u) ++ v)%string (elems r) ->
  v <> EmptyString ->
  container f fence (c ++ u)%string = (false, None)
  /\ intersector f fence (c ++ u)%string = (true, None).
Proof.
  intros H Hh Hv.
  destruct (computeVariableHashes_each_cell f fence _ _ _ _ _ _ H Hh)
    as (t & Heq & _ & _ & _ & Hanc).
  rewrite string_app_assoc in Heq. apply string_app_inv_head in Heq.
  destruct (Hanc u v (eq_sym Heq) Hv) as (Hc & Hi & _). now split.
Qed.

Lemma computeVariableHashes_largest_cells_witness :
  computeVariableHashes (Grid.filler 2 false) 3 Grid.notch FillContains
                        "" 10
  = Some (Slice ["8z"%string; "9"%string], None)
  /\ container (Grid.filler 2 false) Grid.notch "8"%string = (false, None)
  /\ intersector (Grid.filler 2 false) Grid.notch "8"%string = (true, None).
Proof.
  assert (Hrun : computeVariableHashes (Grid.filler 2 false) 3 Grid.notch
                                       FillContains "" 10
                 = Some (Slice ["8z"%string; "9"%string], None))
    by (vm_compute; reflexivity).
  split; [exact Hrun|].
  apply (computeVariableHashes_largest_cells
           (Grid.filler 2 false) Grid.notch FillContains 10 ""%string 3
           (Slice ["8z"%string; "9"%string]) "8"%string "z"%string Hrun).
  - now left.
  - discriminate.
Defined.

(** In [FillIntersects] mode the result covers what the polygon
    intersects: when the polygon intersects the parent of every cell it
    intersects, each cell of maximum precision below the starting cell
    that the polygon intersects is a returned cell or below one. *)
Theorem intersects_mode_covers {Polygon E : Type}
    (f : RecursiveFiller Polygon E) (fence : Polygon) (maxHashes : Z)
    (c t : string) (fuel : nat) (r : slice) :
  intersects_upwards f fence ->
  computeVariableHashes f fuel fence FillIntersects c maxHashes
  = Some (r, None) ->
  over_alphabet t = true ->
  strlen (c ++ t) = maxPrecision f ->
  fst (intersector f fence (c ++ t)%string) = true ->
  exists h, In h (elems r) /\ String.prefix h (c ++ t) = true.
Proof.
  intros Hup H Ht Hlen Hi.
  apply (computeVariableHashes_covers f fence Hup _ _ _ _ _ _ H Ht);
    [lia | exact Hi | right; auto].
Qed.

Lemma intersects_mode_covers_witness :
  intersects_upwards (Grid.spot "9" 1 false) Grid.nowhere
  /\ computeVariableHashes (Grid.spot "9" 1 false) 2 Grid.nowhere
                           FillIntersects "" 32
     = Some (Slice geohashBase32Alphabet, None)
  /\ exists h, In h geohashBase32Alphabet /\ String.prefix h "7" = true.
Proof.
  assert (Hup : intersects_upwards (Grid.spot "9" 1 false) Grid.nowhere)
    by (intros c s _ _; reflexivity).
  assert (Hrun : computeVariableHashes (Grid.spot "9" 1 false) 2 Grid.nowhere
                                       FillIntersects "" 32
                 = Some (Slice geohashBase32Alphabet, None))
    by (vm_compute; reflexivity).
  split; [exact Hup|]. split; [exact Hrun|].
  exact (intersects_mode_covers
           (Grid.spot "9" 1 false) Grid.nowhere 32 ""%string "7"%string 2
           (Slice geohashBase32Alphabet) Hup Hrun eq_refl eq_refl eq_refl).
Defined.

(** In every mode the result covers what the polygon contains: when the
    polygon intersects what it contains and the parent of every cell it
    intersects, each cell below the starting cell and within the maximum
    precision that the polygon contains is a returned cell or below
    one. *)
Theorem contained_cell_covered {Polygon E : Type}
    (f : RecursiveFiller Polygon E) (fence : Polygon) (mode : FillMode)
    (maxHashes : Z) (c t : string) (fuel : nat) (r : slice) :
  intersects_upwards f fence ->
  (forall x, fst (container f fence x) = true ->
             fst (intersector f fence x) = true) ->
  computeVariableHashes f fuel fence mode c maxHashes = Some (r, None) ->
  over_alphabet t = true ->
  strlen (c ++ t) <= maxPrecision f ->
  fst (container f fence (c ++ t)%string) = true ->
  exists h, In h (elems r) /\ String.prefix h (c ++ t) = true.
Proof.
  intros Hup Hcons H Ht Hlen Hc.
  apply (computeVariableHashes_covers f fence Hup _ _ _ _ _ _ H Ht);
    [exact Hlen | now apply Hcons | now left].
Qed.

Lemma contained_cell_covered_witness :
  intersects_upwards (Grid.spot "9" 2 false) Grid.nowhere
  /\ computeVariableHashes (Grid.spot "9" 2 false) 3 Grid.nowhere
                           FillContains "" 32
     = Some (Slice ["9"%string], None)
  /\ exists h, In h ["9"%string] /\ String.prefix h "9" = true.
Proof.
  assert (Hup : intersects_upwards (Grid.spot "9" 2 false) Grid.nowhere)
    by (intros c s _ _; reflexivity).
  assert (Hrun : computeVariableHashes (Grid.spot "9" 2 false) 3 Grid.nowhere
                                       FillContains "" 32
                 = Some (Slice ["9"%string], None))
    by (vm_compute; reflexivity).
  split; [exact Hup|]. split; [exact Hrun|].
  apply (contained_cell_covered
           (Grid.spot "9" 2 false) Grid.nowhere FillContains 32 ""%string
           "9"%string 3 (Slice ["9"%string]) Hup);
    [intros x _; reflexivity | exact Hrun | reflexivity
     | vm_compute; discriminate | reflexivity].
Defined.

(** ** What the expansion returns, and when *)

(** A loop returns only if its first call does. *)
Lemma rangeAlphabet_first {E : Type} (call : string -> option (result E))
    (hash : string) (maxHashes : Z) (next : string) (rest : list string)
    (acc : slice) (x : result E) :
  rangeAlphabet call hash maxHashes (next :: rest) acc = Some x ->
  exists y, call (hash ++ next)%string = Some y.
Proof.
  simpl. destruct (call (hash ++ next)%string) as [y|]; [eauto|discriminate].
Qed.

(** A loop whose first call fails returns the error of that call. *)
Lemma rangeAlphabet_first_fails {E : Type}
    (call : string -> option (result E)) (hash : string) (maxHashes : Z)
    (next : string) (rest : list string) (acc o : slice) (e : error E) :
  call (hash ++ next)%string = Some (o, Some e) ->
  rangeAlphabet call hash maxHashes (next :: rest) acc = Some (Nil, Some e).
Proof. intros H. simpl. now rewrite H. Qed.

Lemma Forall2_eq_map {A B : Type} (R : A -> B -> Prop) (g : A -> B)
    (l : list A) (outs : list B) :
  Forall2 R l outs ->
  (forall a b, In a l -> R a b -> b = g a) ->
  outs = map g l.
Proof.
  induction 1 as [|a b l outs Hab _ IH]; intros Hg; simpl; [reflexivity|].
  rewrite (Hg a b (or_introl eq_refl) Hab). f_equal.
  apply IH. intros a' b' Ha'. apply Hg. now right.
Qed.

Lemma concat_expansions {A : Type} (g : A -> list string) (l : list A) :
  List.concat (map elems (map (fun a => Slice (g a)) l)) = flat_map g l.
Proof. rewrite map_map. simpl. now rewrite flat_map_concat_map. Qed.

Section Expanded.

Context {Polygon E : Type}.
Variable f : RecursiveFiller Polygon E.

(** The expansion returns only from a cell within the maximum
    precision. *)
Lemma extendHashToMaxPrecision_returned :
  forall fuel h maxHashes x,
    extendHashToMaxPrecision f fuel h maxHashes = Some x ->
    strlen h <= maxPrecision f.
Proof.
  induction fuel as [|fuel IH]; intros h maxHashes x H; [discriminate|].
  rewrite extendHashToMaxPrecision_S in H.
  destruct (Z.eqb_spec (strlen h) (maxPrecision f)) as [Heq|Hne]; [lia|].
  pose proof strlen_child as Hchild. pose proof alphabet_nonempty as Hnil.
  destruct geohashBase32Alphabet as [|next rest]; [now destruct Hnil|].
  apply rangeAlphabet_first in H. destruct H as [y Hy].
  apply IH in Hy. rewrite (Hchild h next (or_introl eq_refl)) in Hy. lia.
Qed.

(** From a cell longer than the maximum precision it never returns. *)
Lemma extendHashToMaxPrecision_starves :
  forall fuel h maxHashes,
    maxPrecision f < strlen h ->
    extendHashToMaxPrecision f fuel h maxHashes = None.
Proof.
  intros fuel h maxHashes Hlt.
  destruct (extendHashToMaxPrecision f fuel h maxHashes) as [x|] eqn:Hx;
    [|reflexivity].
  apply extendHashToMaxPrecision_returned in Hx. lia.
Qed.

(** A slice that it returns is the cell followed by each sequence of
    symbols of the depth left. *)
Lemma extendHashToMaxPrecision_slice :
  forall d h fuel maxHashes r,
    strlen h + Z.of_nat d = maxPrecision f ->
    extendHashToMaxPrecision f fuel h maxHashes = Some (r, None) ->
    r = Slice (map (String.append h) (symbolSequences d)).
Proof.
  induction d as [|d IH]; intros h fuel maxHashes r Hlen H;
    (destruct fuel as [|fuel]; [discriminate|]);
    rewrite extendHashToMaxPrecision_S in H.
  - rewrite (proj2 (Z.eqb_eq _ _)) in H by lia. inversion H; subst.
    simpl. now rewrite string_app_nil_r.
  - rewrite (proj2 (Z.eqb_neq _ _)) in H by lia.
    apply rangeAlphabet_completes in H.
    destruct H as (outs & Hret & -> & _).
    rewrite (Forall2_eq_map _
               (fun s => Slice (map (String.append (h ++ s))
                                    (symbolSequences d))) _ _ Hret).
    + rewrite children_sequences, <- symbolSequences_S. reflexivity.
    + intros s o Hs Hso. apply (IH _ _ _ _) in Hso; [exact Hso|].
      rewrite (strlen_child h s Hs). lia.
Qed.

(** It returns the slice when the cell is at the maximum precision or
    the cap allows the sequences; a cell at the maximum precision needs
    no room under the cap. *)
Lemma extendHashToMaxPrecision_succeeds :
  forall d h fuel maxHashes,
    strlen h + Z.of_nat d = maxPrecision f ->
    (d < fuel)%nat ->
    d = O \/ 32 ^ Z.of_nat d <= maxHashes ->
    extendHashToMaxPrecision f fuel h maxHashes
    = Some (Slice (map (String.append h) (symbolSequences d)), None).
Proof.
  intros d h fuel maxHashes Hlen Hfuel [->|Hcap].
  - destruct fuel as [|fuel]; [lia|].
    rewrite extendHashToMaxPrecision_S.
    rewrite (proj2 (Z.eqb_eq _ _)) by lia.
    simpl. now rewrite string_app_nil_r.
  - now apply extendHashToMaxPrecision_at_depth.
Qed.

(** Below the maximum precision, when the cap does not allow the
    sequences, it returns the cap error. *)
Lemma extendHashToMaxPrecision_exceeds :
  forall d h fuel maxHashes,
    strlen h + Z.of_nat (S d) = maxPrecision f ->
    (S d < fuel)%nat ->
    maxHashes < 32 ^ Z.of_nat (S d) ->
    exists have,
      maxHashes < have
      /\ extendHashToMaxPrecision f fuel h maxHashes
         = Some (Nil, Some (HashLimit maxHashes have)).
Proof.
  induction d as [|d IH]; intros h fuel maxHashes Hlen Hfuel Hcap;
    (destruct fuel as [|fuel]; [lia|]);
    rewrite extendHashToMaxPrecision_S;
    rewrite (proj2 (Z.eqb_neq _ _)) by lia.
  - destruct (rangeAlphabet_overflows
                (fun child => extendHashToMaxPrecision f fuel child maxHashes)
                h maxHashes geohashBase32Alphabet
                (map (fun s => Slice (map (String.append (h ++ s))
                                          (symbolSequences 0)))
                     geohashBase32Alphabet) [])
      as (have & Hhave & Heq).
    + apply Forall2_map_r. intros s Hs.
      apply extendHashToMaxPrecision_succeeds; [|lia|now left].
      rewrite (strlen_child h s Hs). lia.
    + apply alphabet_nonempty.
    + unfold total.
      rewrite children_sequences, <- symbolSequences_S, length_map,
        symbolSequences_length.
      simpl List.length. lia.
    + exists have. split; [lia | exact Heq].
  - destruct (Z_le_gt_dec (32 ^ Z.of_nat (S d)) maxHashes) as [Hfit|Hover].
    + destruct (rangeAlphabet_overflows
                  (fun child =>
                     extendHashToMaxPrecision f fuel child maxHashes)
                  h maxHashes geohashBase32Alphabet
                  (map (fun s => Slice (map (String.append (h ++ s))
                                            (symbolSequences (S d))))
                       geohashBase32Alphabet) [])
        as (have & Hhave & Heq).
      * apply Forall2_map_r. intros s Hs.
        apply extendHashToMaxPrecision_succeeds; [|lia|now right].
        rewrite (strlen_child h s Hs). lia.
      * apply alphabet_nonempty.
      * unfold total.
        rewrite children_sequences, <- symbolSequences_S, length_map,
          symbolSequences_length.
        simpl List.length. lia.
      * exists have. split; [lia | exact Heq].
    + pose proof strlen_child as Hchild. pose proof alphabet_nonempty as Hnil.
      destruct geohashBase32Alphabet as [|next rest]; [now destruct Hnil|].
      destruct (IH (h ++ next)%string fuel maxHashes) as (have & Hhave & Heq).
      * rewrite (Hchild h next (or_introl eq_refl)). lia.
      * lia.
      * lia.
      * exists have. split; [exact Hhave|].
        eapply rangeAlphabet_first_fails. exact Heq.
Qed.

Lemma expansion_length (h : string) :
  strlen h <= maxPrecision f ->
  Z.of_nat (List.length (expansion f h)) = 32 ^ (maxPrecision f - strlen h).
Proof.
  intros Hle. unfold expansion, depth_below.
  rewrite length_map, symbolSequences_length. f_equal. lia.
Qed.

Lemma expansion_strlen (h x : string) :
  strlen h <= maxPrecision f ->
  In x (expansion f h) -> strlen x = maxPrecision f.
Proof.
  intros Hle Hx. unfold expansion in Hx. apply in_map_iff in Hx.
  destruct Hx as (t & <- & Ht).
  rewrite strlen_app, (symbolSequences_strlen _ t Ht).
  unfold depth_below. lia.
Qed.

(** A slice that the expansion returns is [expansion]. *)
Lemma extendHashToMaxPrecision_expansion :
  forall fuel h maxHashes r,
    extendHashToMaxPrecision f fuel h maxHashes = Some (r, None) ->
    strlen h <= maxPrecision f /\ r = Slice (expansion f h).
Proof.
  intros fuel h maxHashes r H.
  pose proof (extendHashToMaxPrecision_returned _ _ _ _ H) as Hle.
  split; [exact Hle|].
  apply (extendHashToMaxPrecision_slice (depth_below f h)) in H;
    [exact H | unfold depth_below; lia].
Qed.

(** What the loop of [Fill] returns over cells within the maximum
    precision, with enough fuel: the accumulator followed by the
    expansions when these fit under the cap, the cap error when they do
    not. *)
Lemma rangeHashes_decides :
  forall fuel maxHashes hashes acc,
    (forall h, In h hashes -> strlen h <= maxPrecision f) ->
    (Z.to_nat (maxPrecision f) < fuel)%nat ->
    (Z.of_nat (List.length (acc ++ flat_map (expansion f) hashes))
     <= maxHashes ->
     rangeHashes f fuel maxHashes hashes (Slice acc)
     = Some (Slice (acc ++ flat_map (expansion f) hashes), None))
    /\ (hashes <> [] ->
        maxHashes
        < Z.of_nat (List.length (acc ++ flat_map (expansion f) hashes)) ->
        exists have,
          maxHashes < have
          /\ rangeHashes f fuel maxHashes hashes (Slice acc)
             = Some (Nil, Some (HashLimit maxHashes have))).
Proof.
  intros fuel maxHashes hashes.
  induction hashes as [|h rest IH]; intros acc Hall Hfuel.
  - split; [|intros C; now destruct C].
    intros _. simpl. now rewrite app_nil_r.
  - assert (Hle : strlen h <= maxPrecision f) by (apply Hall; now left).
    assert (Hrest : forall x, In x rest -> strlen x <= maxPrecision f)
      by (intros x Hx; apply Hall; now right).
    assert (Hlen : strlen h + Z.of_nat (depth_below f h) = maxPrecision f)
      by (unfold depth_below; lia).
    assert (Hdepth : (depth_below f h < fuel)%nat).
    { unfold depth_below, strlen in *. lia. }
    pose proof (expansion_length h Hle) as Hexp.
    assert (Hpow : 32 ^ (maxPrecision f - strlen h)
                   = 32 ^ Z.of_nat (depth_below f h))
      by (f_equal; lia).
    assert (Hone : 1 <= 32 ^ Z.of_nat (depth_below f h))
      by (apply Z.lt_pred_le, Z.pow_pos_nonneg; lia).
    destruct (IH (acc ++ expansion f h) Hrest Hfuel) as [IHfit IHover].
    simpl flat_map. rewrite !app_assoc in *.
    split.
    + intros Hfit. rewrite !length_app in Hfit.
      simpl. rewrite extendHashToMaxPrecision_succeeds with (d := depth_below f h);
        [|exact Hlen|exact Hdepth|right; lia].
      fold (expansion f h). rewrite append_Slice. simpl elems.
      cap_check.
      * rewrite len_Slice, length_app in Hcap. lia.
      * apply IHfit. rewrite !length_app. lia.
    + intros _ Hover. simpl.
      destruct (depth_below f h) as [|d] eqn:Hd.
      * rewrite extendHashToMaxPrecision_succeeds with (d := O);
          [|lia|lia|now left].
        replace (map (String.append h) (symbolSequences 0))
          with (expansion f h) by (unfold expansion; now rewrite Hd).
        rewrite append_Slice. simpl elems.
        cap_check; [eexists; split; [exact Hcap | reflexivity]|].
        destruct rest as [|h' rest'].
        -- simpl in Hover. rewrite app_nil_r in Hover.
           rewrite len_Slice in Hcap. lia.
        -- apply IHover; [discriminate | exact Hover].
      * destruct (Z_le_gt_dec (32 ^ Z.of_nat (S d)) maxHashes) as [Hfit|Hbig].
        -- rewrite extendHashToMaxPrecision_succeeds with (d := S d);
             [|lia|lia|now right].
           replace (map (String.append h) (symbolSequences (S d)))
             with (expansion f h) by (unfold expansion; now rewrite Hd).
           rewrite append_Slice. simpl elems.
        cap_check; [eexists; split; [exact Hcap | reflexivity]|].
           destruct rest as [|h' rest'].
           ++ simpl in Hover. rewrite app_nil_r in Hover.
              rewrite len_Slice in Hcap. lia.
           ++ apply IHover; [discriminate | exact Hover].
        -- destruct (extendHashToMaxPrecision_exceeds d h fuel maxHashes)
             as (have & Hhave & Heq); [lia|lia|lia|].
           rewrite Heq. now exists have.
Qed.

End Expanded.

Lemma symbolSequences_complete :
  forall d u,
    over_alphabet u = true -> String.length u = d ->
    In u (symbolSequences d).
Proof.
  induction d as [|d IH]; intros u Hu Hlen.
  - destruct u; [now left | discriminate].
  - destruct u as [|a u]; [discriminate|].
    apply over_alphabet_cons in Hu. destruct Hu as [Ha Hu].
    rewrite symbolSequences_S. apply in_flat_map.
    exists (String a EmptyString). split; [exact Ha|].
    apply in_map_iff. exists u. split; [reflexivity|].
    apply IH; [exact Hu|]. simpl in Hlen. now inversion Hlen.
Qed.

(** A list that [Fill] returns with fixed precision is made of the
    expansions of the cells that the search returned, in their order;
    these cells are within the maximum precision and the cap is not
    negative. *)
Lemma Fill_fixed_returned {Polygon E : Type}
    (f : RecursiveFiller Polygon E) (fence : Polygon) (mode : FillMode)
    (maxHashes : Z) (fuel : nat) (r : slice) :
  fixedPrecision f = true ->
  Fill f fuel fence mode maxHashes = Some (r, None) ->
  exists found,
    computeVariableHashes f fuel fence mode "" maxHashes = Some (found, None)
    /\ r = Slice (flat_map (expansion f) (elems found))
    /\ (forall h, In h (elems found) -> strlen h <= maxPrecision f)
    /\ 0 <= maxHashes.
Proof.
  intros Hfixed H. unfold Fill in H.
  destruct (computeVariableHashes f fuel fence mode "" maxHashes)
    as [[found [err|]]|] eqn:Hsearch; try discriminate.
  rewrite Hfixed in H. cbn [negb] in H. cbv zeta in H.
  cap_check; [discriminate|]. rewrite len_Slice in Hcap. simpl in Hcap.
  apply rangeHashes_completes in H. destruct H as (exts & Hret & -> & _).
  exists found. split; [reflexivity|].
  assert (Hext : forall h x,
             In h (elems found) ->
             extendHashToMaxPrecision f fuel h maxHashes = Some (x, None) ->
             x = Slice (expansion f h)).
  { intros h x _ Hx.
    now apply extendHashToMaxPrecision_expansion in Hx. }
  split; [|split; [|exact Hcap]].
  - rewrite (Forall2_eq_map _ (fun h => Slice (expansion f h)) _ _ Hret Hext).
    now rewrite concat_expansions.
  - intros h Hh. destruct (children_at _ _ _ h Hret Hh) as (x & Hx & _).
    now apply extendHashToMaxPrecision_expansion in Hx.
Qed.

(** Whenever [extendHashToMaxPrecision] returns a list, the cell is
    within the maximum precision, the list is the cell followed by each
    sequence of [maxPrecision - len(h)] symbols in depth-first alphabet
    order, and either the cell is at the maximum precision or
    [32 ^ (maxPrecision - len(h))] is at most [maxHashes]. *)
Theorem extendHashToMaxPrecision_shape {Polygon E : Type}
    (f : RecursiveFiller Polygon E) (h : string) (maxHashes : Z)
    (fuel : nat) (r : slice) :
  extendHashToMaxPrecision f fuel h maxHashes = Some (r, None) ->
  strlen h <= maxPrecision f
  /\ r = Slice (expansion f h)
  /\ (strlen h = maxPrecision f
      \/ 32 ^ (maxPrecision f - strlen h) <= maxHashes).
Proof.
  intros H.
  destruct (extendHashToMaxPrecision_expansion f _ _ _ _ H) as [Hle ->].
  split; [exact Hle|]. split; [reflexivity|].
  destruct (Z.eq_dec (strlen h) (maxPrecision f)) as [Heq|Hne]; [now left|].
  right. destruct fuel as [|fuel]; [discriminate|].
  rewrite extendHashToMaxPrecision_S in H.
  rewrite (proj2 (Z.eqb_neq _ _) Hne) in H.
  apply rangeAlphabet_completes in H. destruct H as (outs & _ & _ & Hcap).
  specialize (Hcap alphabet_nonempty).
  now rewrite len_Slice, (expansion_length f h Hle) in Hcap.
Qed.

Lemma extendHashToMaxPrecision_shape_witness :
  extendHashToMaxPrecision (Grid.filler 6 true) 2 "9q8yy" 32
  = Some (Slice (expansion (Grid.filler 6 true) "9q8yy"), None)
  /\ strlen "9q8yy" <= maxPrecision (Grid.filler 6 true).
Proof.
  assert (Hrun : extendHashToMaxPrecision (Grid.filler 6 true) 2 "9q8yy" 32
                 = Some (Slice (expansion (Grid.filler 6 true) "9q8yy"),
                         None))
    by (vm_compute; reflexivity).
  split; [exact Hrun|].
  exact (proj1 (extendHashToMaxPrecision_shape
                  (Grid.filler 6 true) "9q8yy"%string 32 2 _ Hrun)).
Defined.

(** From a cell shorter than the maximum precision, with fuel for the
    depth left, [extendHashToMaxPrecision] returns the cap error, with a
    count above the cap, whenever [32 ^ (maxPrecision - len(h))] is more
    than [maxHashes]. *)
Theorem extendHashToMaxPrecision_overflows {Polygon E : Type}
    (f : RecursiveFiller Polygon E) (h : string) (maxHashes : Z)
    (fuel : nat) :
  strlen h < maxPrecision f ->
  (Z.to_nat (maxPrecision f - strlen h) < fuel)%nat ->
  maxHashes < 32 ^ (maxPrecision f - strlen h) ->
  exists have,
    maxHashes < have
    /\ extendHashToMaxPrecision f fuel h maxHashes
       = Some (Nil, Some (HashLimit maxHashes have)).
Proof.
  intros Hlt Hfuel Hcap.
  destruct (Z.to_nat (maxPrecision f - strlen h)) as [|d] eqn:Hd; [lia|].
  apply (extendHashToMaxPrecision_exceeds f d); [lia | lia|].
  replace (Z.of_nat (S d)) with (maxPrecision f - strlen h) by lia.
  exact Hcap.
Qed.

Lemma extendHashToMaxPrecision_overflows_witness :
  strlen "9q8yy" < maxPrecision (Grid.filler 6 true)
  /\ 31 < 32 ^ (maxPrecision (Grid.filler 6 true) - strlen "9q8yy")
  /\ exists have,
      31 < have
      /\ extendHashToMaxPrecision (Grid.filler 6 true) 2 "9q8yy" 31
         = Some (Nil, Some (HashLimit 31 have)).
Proof.
  split; [vm_compute; reflexivity|]. split; [vm_compute; reflexivity|].
  apply extendHashToMaxPrecision_overflows;
    [vm_compute; reflexivity | vm_compute; lia | vm_compute; reflexivity].
Defined.

(** With a negative maximum precision and fixed precision, [Fill] never
    returns once the search has found a cell: no cell is as short as the
    maximum precision, and the expansion recurses without end. (A
    negative cap makes [Fill] fail before.) *)
Theorem Fill_negative_precision_never_returns {Polygon E : Type}
    (f : RecursiveFiller Polygon E) (fence : Polygon) (mode : FillMode)
    (maxHashes : Z) (n : nat) (found : slice) :
  maxPrecision f < 0 ->
  fixedPrecision f = true ->
  0 <= maxHashes ->
  computeVariableHashes f n fence mode "" maxHashes = Some (found, None) ->
  elems found <> [] ->
  forall fuel, Fill f fuel fence mode maxHashes = None.
Proof.
  intros Hneg Hfixed Hcap Hfound Hne fuel. unfold Fill.
  destruct (computeVariableHashes f fuel fence mode "" maxHashes)
    as [x|] eqn:Hsearch; [|reflexivity].
  apply (computeVariableHashes_mono f fuel (Nat.max n fuel)) in Hsearch;
    [|lia].
  apply (computeVariableHashes_mono f n (Nat.max n fuel)) in Hfound; [|lia].
  rewrite Hfound in Hsearch. inversion Hsearch; subst x.
  rewrite Hfixed. cbn [negb]. cbv zeta.
  cap_check; [rewrite len_Slice in Hcap0; simpl in Hcap0; lia|].
  destruct (elems found) as [|h rest]; [now destruct Hne|].
  simpl. rewrite extendHashToMaxPrecision_starves; [reflexivity|].
  unfold strlen. lia.
Qed.

Lemma Fill_negative_precision_never_returns_witness :
  maxPrecision (Grid.filler (-1) true) < 0
  /\ computeVariableHashes (Grid.filler (-1) true) 1 Grid.globe FillContains
                           "" 10
     = Some (Slice [""%string], None)
  /\ forall fuel, Fill (Grid.filler (-1) true) fuel Grid.globe FillContains 10
                  = None.
Proof.
  split; [reflexivity|]. split; [reflexivity|].
  apply (Fill_negative_precision_never_returns
           (Grid.filler (-1) true) Grid.globe FillContains 10 1
           (Slice [""%string]));
    [reflexivity | reflexivity | lia | reflexivity | discriminate].
Defined.

(** A list that [Fill] returns with fixed precision is the concatenation,
    in order, of the expansions of the cells that the search returned,
    and each of its cells has length [maxPrecision]. *)
Theorem Fill_fixed_expands {Polygon E : Type}
    (f : RecursiveFiller Polygon E) (fence : Polygon) (mode : FillMode)
    (maxHashes : Z) (fuel : nat) (r : slice) :
  fixedPrecision f = true ->
  Fill f fuel fence mode maxHashes = Some (r, None) ->
  (exists found,
      computeVariableHashes f fuel fence mode "" maxHashes
      = Some (found, None)
      /\ r = Slice (flat_map (expansion f) (elems found)))
  /\ forall x, In x (elems r) -> strlen x = maxPrecision f.
Proof.
  intros Hfixed H.
  destruct (Fill_fixed_returned f fence mode maxHashes fuel r Hfixed H)
    as (found & Hsearch & -> & Hle & _).
  split; [now exists found|].
  intros x Hx. simpl in Hx. apply in_flat_map in Hx.
  destruct Hx as (h & Hh & Hx). apply (expansion_strlen f h x); auto.
Qed.

Lemma Fill_fixed_expands_witness :
  fixedPrecision (Grid.filler 2 true) = true
  /\ Fill (Grid.filler 2 true) 3 Grid.notch FillContains 40
     = Some (Slice ("8z"%string :: expansion (Grid.filler 2 true) "9"), None)
  /\ strlen "8z" = maxPrecision (Grid.filler 2 true).
Proof.
  assert (Hrun : Fill (Grid.filler 2 true) 3 Grid.notch FillContains 40
                 = Some (Slice ("8z"%string
                                  :: expansion (Grid.filler 2 true) "9"),
                         None))
    by (vm_compute; reflexivity).
  split; [reflexivity|]. split; [exact Hrun|].
  apply (proj2 (Fill_fixed_expands (Grid.filler 2 true) Grid.notch
                                   FillContains 40 3 _ eq_refl Hrun)).
  now left.
Defined.

(** With fixed precision, a maximum precision that is not negative and
    fuel for it, what [Fill] returns after a search that returned a list
    is decided by the number of descendants of its cells at the maximum
    precision: all of them, in order, when they are at most [maxHashes],
    and the cap error, with a count above the cap, when they are more. *)
Theorem Fill_fixed_decides {Polygon E : Type}
    (f : RecursiveFiller Polygon E) (fence : Polygon) (mode : FillMode)
    (maxHashes : Z) (fuel : nat) (found : slice) :
  0 <= maxPrecision f ->
  fixedPrecision f = true ->
  (Z.to_nat (maxPrecision f) < fuel)%nat ->
  computeVariableHashes f fuel fence mode "" maxHashes = Some (found, None) ->
  (Z.of_nat (List.length (flat_map (expansion f) (elems found)))
   <= maxHashes ->
   Fill f fuel fence mode maxHashes
   = Some (Slice (flat_map (expansion f) (elems found)), None))
  /\ (maxHashes
      < Z.of_nat (List.length (flat_map (expansion f) (elems found))) ->
      exists have,
        maxHashes < have
        /\ Fill f fuel fence mode maxHashes
           = Some (Nil, Some (HashLimit maxHashes have))).
Proof.
  intros Hpos Hfixed Hfuel Hsearch. unfold Fill.
  rewrite Hsearch, Hfixed. cbn [negb]. cbv zeta.
  assert (Hall : forall h, In h (elems found) -> strlen h <= maxPrecision f).
  { intros h Hh.
    destruct (computeVariableHashes_each_cell f fence _ _ _ _ _ _ Hsearch Hh)
      as (_ & _ & _ & _ & Hprec & _).
    apply Hprec. exact Hpos. }
  destruct (rangeHashes_decides f fuel maxHashes (elems found) [] Hall Hfuel)
    as [Hfit Hover].
  simpl app in Hfit, Hover. split.
  - intros Hle. cap_check; [|now apply Hfit].
    rewrite len_Slice in Hcap. simpl in Hcap. lia.
  - intros Hlt. cap_check; [eexists; split; [exact Hcap | reflexivity]|].
    apply Hover; [|exact Hlt].
    intros Hnil. rewrite Hnil in Hlt. simpl in Hlt.
    rewrite len_Slice in Hcap. simpl in Hcap. lia.
Qed.

Lemma Fill_fixed_decides_witness :
  0 <= maxPrecision (Grid.filler 2 true)
  /\ computeVariableHashes (Grid.filler 2 true) 3 Grid.notch FillContains
                           "" 32
     = Some (Slice ["8z"%string; "9"%string], None)
  /\ exists have,
      32 < have
      /\ Fill (Grid.filler 2 true) 3 Grid.notch FillContains 32
         = Some (Nil, Some (HashLimit 32 have)).
Proof.
  assert (Hrun : computeVariableHashes (Grid.filler 2 true) 3 Grid.notch
                                       FillContains "" 32
                 = Some (Slice ["8z"%string; "9"%string], None))
    by (vm_compute; reflexivity).
  split; [simpl; lia|]. split; [exact Hrun|].
  apply (proj2 (Fill_fixed_decides (Grid.filler 2 true) Grid.notch
                                   FillContains 32 3 _
                                   ltac:(simpl; lia) eq_refl
                                   ltac:(vm_compute; lia) Hrun)).
  vm_compute. reflexivity.
Defined.

(** With fixed precision in [FillIntersects] mode, when the polygon
    intersects the parent of every cell it intersects, the list that
    [Fill] returns holds every cell of maximum precision that the polygon
    intersects. *)
Theorem Fill_fixed_intersects_complete {Polygon E : Type}
    (f : RecursiveFiller Polygon E) (fence : Polygon) (maxHashes : Z)
    (fuel : nat) (r : slice) (x : string) :
  intersects_upwards f fence ->
  fixedPrecision f = true ->
  Fill f fuel fence FillIntersects maxHashes = Some (r, None) ->
  over_alphabet x = true ->
  strlen x = maxPrecision f ->
  fst (intersector f fence x) = true ->
  In x (elems r).
Proof.
  intros Hup Hfixed H Hx Hlen Hi.
  destruct (Fill_fixed_returned f fence _ maxHashes fuel r Hfixed H)
    as (found & Hsearch & -> & Hle & _).
  destruct (computeVariableHashes_covers f fence Hup _ _ ""%string _ _ x
              Hsearch Hx) as (h & Hh & Hpre);
    [simpl; lia | exact Hi | right; auto|].
  simpl in Hpre. apply prefix_inv in Hpre. destruct Hpre as [u ->].
  simpl. apply in_flat_map. exists h. split; [exact Hh|].
  unfold expansion. apply in_map. apply symbolSequences_complete.
  - rewrite over_alphabet_app in Hx. apply andb_true_iff in Hx. tauto.
  - rewrite strlen_app in Hlen. unfold depth_below, strlen in *. lia.
Qed.

Lemma Fill_fixed_intersects_complete_witness :
  intersects_upwards (Grid.spot "9" 2 true) Grid.nowhere
  /\ Fill (Grid.spot "9" 2 true) 3 Grid.nowhere FillIntersects 1024
     = Some (Slice (symbolSequences 2), None)
  /\ In "7z"%string (symbolSequences 2).
Proof.
  assert (Hup : intersects_upwards (Grid.spot "9" 2 true) Grid.nowhere)
    by (intros c s _ _; reflexivity).
  assert (Hrun : Fill (Grid.spot "9" 2 true) 3 Grid.nowhere FillIntersects
                      1024
                 = Some (Slice (symbolSequences 2), None))
    by (vm_compute; reflexivity).
  split; [exact Hup|]. split; [exact Hrun|].
  exact (Fill_fixed_intersects_complete
           (Grid.spot "9" 2 true) Grid.nowhere 1024 3
           (Slice (symbolSequences 2)) "7z"%string
           Hup eq_refl Hrun eq_refl eq_refl eq_refl).
Defined.

(** With fixed precision in a mode other than [FillIntersects], every
    cell of the list that [Fill] returns is below (or is) a cell that the
    polygon contains. *)
Theorem Fill_fixed_contains_sound {Polygon E : Type}
    (f : RecursiveFiller Polygon E) (fence : Polygon) (mode : FillMode)
    (maxHashes : Z) (fuel : nat) (r : slice) (x : string) :
  mode <> FillIntersects ->
  fixedPrecision f = true ->
  Fill f fuel fence mode maxHashes = Some (r, None) ->
  In x (elems r) ->
  exists h,
    container f fence h = (true, None) /\ String.prefix h x = true.
Proof.
  intros Hmode Hfixed H Hx.
  destruct (Fill_fixed_returned f fence _ maxHashes fuel r Hfixed H)
    as (found & Hsearch & -> & _ & _).
  simpl in Hx. apply in_flat_map in Hx. destruct Hx as (h & Hh & Hx).
  exists h. split.
  - destruct (computeVariableHashes_each_cell f fence _ _ _ _ _ _ Hsearch Hh)
      as (_ & _ & _ & [Hc|[C _]] & _); [exact Hc | now destruct Hmode].
  - unfold expansion in Hx. apply in_map_iff in Hx.
    destruct Hx as (t & <- & _). apply prefix_app.
Qed.

Lemma Fill_fixed_contains_sound_witness :
  FillContains <> FillIntersects
  /\ Fill (Grid.filler 2 true) 3 Grid.notch FillContains 40
     = Some (Slice ("8z"%string :: expansion (Grid.filler 2 true) "9"), None)
  /\ exists h,
      container (Grid.filler 2 true) Grid.notch h = (true, None)
      /\ String.prefix h "9b" = true.
Proof.
  assert (Hmode : FillContains <> FillIntersects) by discriminate.
  assert (Hrun : Fill (Grid.filler 2 true) 3 Grid.notch FillContains 40
                 = Some (Slice ("8z"%string
                                  :: expansion (Grid.filler 2 true) "9"),
                         None))
    by (vm_compute; reflexivity).
  split; [exact Hmode|]. split; [exact Hrun|].
  apply (Fill_fixed_contains_sound
           (Grid.filler 2 true) Grid.notch FillContains 40 3 _ "9b"%string
           Hmode eq_refl Hrun).
  vm_compute. auto 15.
Defined.

(** ** The order of the cells returned *)

Lemma alphabet_ascending :
  ForallOrdPairs symbols_ascending geohashBase32Alphabet.
Proof.
  unfold geohashBase32Alphabet, symbols_ascending.
  repeat (constructor;
          [repeat (constructor;
                   [eexists; eexists; repeat split; reflexivity|]);
           constructor|]).
  constructor.
Qed.

Lemma compare_app_cancel (c a b : string) :
  String.compare (c ++ a) (c ++ b) = String.compare a b.
Proof.
  induction c as [|x c IH]; simpl; [reflexivity|].
  unfold Ascii.compare. now rewrite N.compare_refl.
Qed.

Lemma ascending_app (c u v : string) :
  ascending u v -> ascending (c ++ u) (c ++ v).
Proof.
  unfold ascending, apart. now rewrite !prefix_app_cancel, compare_app_cancel.
Qed.

(** Cells below two children of a cell are in the order of the
    children. *)
Lemma ascending_siblings (c s t x y : string) :
  symbols_ascending s t ->
  ascending ((c ++ s) ++ x) ((c ++ t) ++ y).
Proof.
  intros (a & b & -> & -> & Hlt).
  rewrite !string_app_assoc. apply ascending_app. simpl.
  assert (Hne : a <> b).
  { intros ->. unfold Ascii.compare in Hlt.
    rewrite N.compare_refl in Hlt. discriminate. }
  unfold ascending, apart. simpl.
  destruct (ascii_dec a b) as [C|_]; [now destruct Hne|].
  destruct (ascii_dec b a) as [C|_]; [now destruct Hne|].
  now rewrite Hlt.
Qed.

(** Cells below two cells in order, neither a prefix of the other, are
    in the same order. *)
Lemma ascending_below (h h' u v : string) :
  ascending h h' -> ascending (h ++ u) (h' ++ v).
Proof.
  revert h'. induction h as [|a h IH]; intros h' [[H1 H2] Hlt].
  - destruct h'; discriminate.
  - destruct h' as [|b h']; [discriminate|].
    simpl in H1, H2, Hlt. unfold ascending, apart. simpl.
    destruct (Ascii.compare a b) eqn:Hab; try discriminate.
    + apply Ascii.compare_eq_iff in Hab. subst b.
      destruct (ascii_dec a a) as [_|C]; [|now destruct C].
      now apply IH.
    + assert (Hne : a <> b).
      { intros ->. unfold Ascii.compare in Hab.
        rewrite N.compare_refl in Hab. discriminate. }
      destruct (ascii_dec a b) as [C|_]; [now destruct Hne|].
      destruct (ascii_dec b a) as [C|_]; [now destruct Hne|].
      auto.
Qed.

Lemma ForallOrdPairs_map {A B : Type} (R : A -> A -> Prop)
    (Q : B -> B -> Prop) (g : A -> B) (l : list A) :
  (forall x y, R x y -> Q (g x) (g y)) ->
  ForallOrdPairs R l -> ForallOrdPairs Q (map g l).
Proof.
  intros Hg. induction 1 as [|a l Ha _ IH]; simpl; constructor; [|exact IH].
  apply Forall_map. eapply Forall_impl; [|exact Ha]. intros y. apply Hg.
Qed.

(** Results that are each in order, found along keys in order, are in
    order when put one after the other, as soon as the order of two keys
    is the order of what is found along them. *)
Lemma concat_ordered {A : Type} (R : A -> slice -> Prop)
    (S : A -> A -> Prop) (B : A -> string -> Prop)
    (Q : string -> string -> Prop) :
  (forall k k' x y, S k k' -> B k x -> B k' y -> Q x y) ->
  forall keys outs,
    Forall2 R keys outs ->
    ForallOrdPairs S keys ->
    (forall k o, In k keys -> R k o ->
                 Forall (B k) (elems o) /\ ForallOrdPairs Q (elems o)) ->
    ForallOrdPairs Q (List.concat (map elems outs)).
Proof.
  intros Hcross.
  induction 1 as [|k o keys outs Hko Hrest IH]; intros Hkeys Heach; simpl;
    [constructor|].
  inversion Hkeys as [|? ? Hk Hkeys']; subst.
  apply ForallOrdPairs_app.
  - apply (Heach k o); [now left | exact Hko].
  - apply IH; [exact Hkeys'|]. intros k' o' Hk'. apply Heach. now right.
  - intros x y Hx Hy.
    destruct (in_children R keys outs y Hrest Hy)
      as (k' & o' & Hk' & Hko' & Hy').
    destruct (Heach k o (or_introl eq_refl) Hko) as [Hb _].
    destruct (Heach k' o' (or_intror Hk') Hko') as [Hb' _].
    rewrite Forall_forall in Hb, Hb', Hk.
    apply (Hcross k k'); auto.
Qed.

Lemma symbolSequences_ascending (d : nat) :
  ForallOrdPairs ascending (symbolSequences d).
Proof.
  induction d as [|d IH]; [repeat constructor|].
  rewrite symbolSequences_S, <- concat_expansions.
  apply (concat_ordered
           (fun s o => o = Slice (map (String.append s) (symbolSequences d)))
           symbols_ascending
           (fun s x => exists u, x = (s ++ u)%string)
           ascending)
    with (keys := geohashBase32Alphabet).
  - intros s t x y Hst [u ->] [v ->].
    apply (ascending_siblings EmptyString s t u v Hst).
  - now apply Forall2_map_r.
  - apply alphabet_ascending.
  - intros s o _ ->. simpl. split.
    + apply Forall_forall. intros x Hx. apply in_map_iff in Hx.
      destruct Hx as (u & <- & _). now exists u.
    + apply (ForallOrdPairs_map ascending); [apply ascending_app | exact IH].
Qed.

Lemma expansion_ascending {Polygon E : Type} (f : RecursiveFiller Polygon E)
    (h : string) :
  ForallOrdPairs ascending (expansion f h).
Proof.
  unfold expansion.
  apply (ForallOrdPairs_map ascending);
    [apply ascending_app | apply symbolSequences_ascending].
Qed.

Lemma computeVariableHashes_ascending {Polygon E : Type}
    (f : RecursiveFiller Polygon E) (fence : Polygon) :
  forall fuel mode c maxHashes r,
    computeVariableHashes f fuel fence mode c maxHashes = Some (r, None) ->
    ForallOrdPairs ascending (elems r).
Proof.
  induction fuel as [|fuel IH]; intros mode c maxHashes r H; [discriminate|].
  rewrite computeVariableHashes_S in H.
  predicate_calls f fence c; cbn [negb] in H; try discriminate.
  - inversion H; subst. repeat constructor.
  - destruct (strlen c =? maxPrecision f).
    + destruct (mode =? FillIntersects); inversion H; subst;
        repeat constructor.
    + apply rangeAlphabet_completes in H.
      destruct H as (outs & Hret & -> & _). simpl.
      apply (concat_ordered _ symbols_ascending
               (fun s x => String.prefix (c ++ s) x = true) ascending)
        with (keys := geohashBase32Alphabet) (2 := Hret).
      * intros s t x y Hst Hx Hy.
        apply prefix_inv in Hx, Hy. destruct Hx as [u ->], Hy as [v ->].
        now apply ascending_siblings.
      * apply alphabet_ascending.
      * intros s o _ Hso. split; [|exact (IH _ _ _ _ Hso)].
        now destruct (computeVariableHashes_cells f fence _ _ _ _ _ Hso).
  - inversion H; subst. constructor.
Qed.

Lemma ascending_sorted (l : list string) :
  ForallOrdPairs ascending l ->
  StronglySorted (fun x y => String.ltb x y = true) l.
Proof.
  induction 1 as [|a l Ha _ IH]; constructor; [exact IH|].
  eapply Forall_impl; [|exact Ha].
  intros y [_ Hlt]. unfold String.ltb. now rewrite Hlt.
Qed.

(** A list that [Fill] returns is in strictly increasing byte order, with
    variable as with fixed precision: the search and the expansion go
    through the alphabet, which is listed in increasing order, depth
    first. *)
Theorem Fill_sorted {Polygon E : Type}
    (f : RecursiveFiller Polygon E) (fence : Polygon) (mode : FillMode)
    (maxHashes : Z) (fuel : nat) (r : slice) :
  Fill f fuel fence mode maxHashes = Some (r, None) ->
  StronglySorted (fun x y => String.ltb x y = true) (elems r).
Proof.
  intros H. apply ascending_sorted.
  destruct (fixedPrecision f) eqn:Hfixed.
  - destruct (Fill_fixed_returned f fence mode maxHashes fuel r Hfixed H)
      as (found & Hsearch & -> & _ & _).
    simpl. rewrite <- concat_expansions.
    apply (concat_ordered
             (fun h o => o = Slice (expansion f h)) ascending
             (fun h x => String.prefix h x = true) ascending)
      with (keys := elems found).
    + intros h h' x y Hh Hx Hy.
      apply prefix_inv in Hx, Hy. destruct Hx as [u ->], Hy as [v ->].
      now apply ascending_below.
    + now apply Forall2_map_r.
    + exact (computeVariableHashes_ascending f fence _ _ _ _ _ Hsearch).
    + intros h o _ ->. simpl. split; [|apply expansion_ascending].
      apply Forall_forall. intros x Hx. unfold expansion in Hx.
      apply in_map_iff in Hx. destruct Hx as (t & <- & _). apply prefix_app.
  - unfold Fill in H.
    destruct (computeVariableHashes f fuel fence mode "" maxHashes)
      as [[found [err|]]|] eqn:Hsearch; try discriminate.
    rewrite Hfixed in H. cbn [negb] in H. inversion H; subst.
    exact (computeVariableHashes_ascending f fence _ _ _ _ _ Hsearch).
Qed.

Lemma Fill_sorted_witness :
  Fill (Grid.filler 2 false) 3 Grid.notch FillContains 40
  = Some (Slice ["8z"%string; "9"%string], None)
  /\ StronglySorted (fun x y => String.ltb x y = true)
                    ["8z"%string; "9"%string].
Proof.
  assert (Hrun : Fill (Grid.filler 2 false) 3 Grid.notch FillContains 40
                 = Some (Slice ["8z"%string; "9"%string], None))
    by (vm_compute; reflexivity).
  split; [exact Hrun|].
  exact (Fill_sorted (Grid.filler 2 false) Grid.notch FillContains 40 3
                     (Slice ["8z"%string; "9"%string]) Hrun).
Defined.

(** ** Building a filler from options *)

Section Built.

Context {Polygon E : Type}.
Variables Contains Intersects : predicate Polygon E.

Lemma NewRecursiveFiller_app (before after : list (Option Polygon E)) :
  NewRecursiveFiller Contains Intersects (before ++ after)
  = apply_options after (NewRecursiveFiller Contains Intersects before).
Proof. unfold NewRecursiveFiller, apply_options. apply fold_left_app. Qed.

Lemma WithMaxPrecision_not_fixed (p : Z) :
  WithFixedPrecision <> WithMaxPrecision (Polygon := Polygon) (E := E) p.
Proof.
  intros H.
  apply (f_equal (fun o => fixedPrecision
                             (o (NewRecursiveFiller Contains Intersects []))))
    in H.
  discriminate.
Qed.

Lemma WithPredicates_not_fixed (c i : predicate Polygon E) :
  WithFixedPrecision <> WithPredicates c i.
Proof.
  intros H.
  apply (f_equal (fun o => fixedPrecision
                             (o (NewRecursiveFiller Contains Intersects []))))
    in H.
  discriminate.
Qed.

(** Package options other than [WithMaxPrecision] keep the precision. *)
Lemma options_keep_precision :
  forall (l : list (Option Polygon E)) (r : RecursiveFiller Polygon E),
    Forall package_option l ->
    (forall q, ~ In (WithMaxPrecision q) l) ->
    maxPrecision (apply_options l r) = maxPrecision r.
Proof.
  unfold apply_options.
  induction l as [|o l IH]; intros r Hl Hno; simpl; [reflexivity|].
  inversion Hl as [|? ? Ho Hl']; subst.
  rewrite IH; [|exact Hl'|intros q Hq; apply (Hno q); now right].
  destruct Ho as [[p ->]|[->|(c & i & ->)]]; [|reflexivity|reflexivity].
  destruct (Hno p). now left.
Qed.

(** Package options other than [WithPredicates] keep the predicates. *)
Lemma options_keep_predicates :
  forall (l : list (Option Polygon E)) (r : RecursiveFiller Polygon E),
    Forall package_option l ->
    (forall c i, ~ In (WithPredicates c i) l) ->
    container (apply_options l r) = container r
    /\ intersector (apply_options l r) = intersector r.
Proof.
  unfold apply_options.
  induction l as [|o l IH]; intros r Hl Hno; simpl; [auto|].
  inversion Hl as [|? ? Ho Hl']; subst.
  destruct (IH (o r) Hl') as [-> ->];
    [intros c i Hci; apply (Hno c i); now right|].
  destruct Ho as [[p ->]|[->|(c & i & ->)]]; [auto|auto|].
  destruct (Hno c i). now left.
Qed.

End Built.

(** A filler built from package options has fixed precision exactly when
    [WithFixedPrecision] is one of them, wherever it stands: no option
    of the package switches fixed precision off. *)
Theorem NewRecursiveFiller_fixedPrecision {Polygon E : Type}
    (Contains Intersects : predicate Polygon E)
    (options : list (Option Polygon E)) :
  Forall package_option options ->
  fixedPrecision (NewRecursiveFiller Contains Intersects options) = true
  <-> In WithFixedPrecision options.
Proof.
  induction options as [|o l IH] using rev_ind; intros Hall.
  - simpl. split; [discriminate | intros []].
  - apply Forall_app in Hall. destruct Hall as [Hl Ho].
    inversion Ho as [|? ? Ho' _]; subst.
    rewrite NewRecursiveFiller_app. simpl.
    rewrite in_app_iff. simpl.
    destruct Ho' as [[p ->]|[->|(c & i & ->)]]; simpl.
    + rewrite (IH Hl). split; [tauto|].
      intros [H|[H|[]]]; [exact H|].
      now destruct (WithMaxPrecision_not_fixed Contains Intersects p).
    + tauto.
    + rewrite (IH Hl). split; [tauto|].
      intros [H|[H|[]]]; [exact H|].
      now destruct (WithPredicates_not_fixed Contains Intersects c i).
Qed.

Lemma NewRecursiveFiller_fixedPrecision_witness :
  Forall package_option
         [WithFixedPrecision;
          WithMaxPrecision (Polygon := Grid.polygon) (E := string) 8]
  /\ fixedPrecision
       (NewRecursiveFiller Grid.contains Grid.intersects
                           [WithFixedPrecision; WithMaxPrecision 8])
     = true.
Proof.
  assert (Hall : Forall package_option
                        [WithFixedPrecision;
                         WithMaxPrecision (Polygon := Grid.polygon)
                                          (E := string) 8]).
  { constructor; [right; left; reflexivity|].
    constructor; [left; now exists 8 | constructor]. }
  split; [exact Hall|].
  apply (proj2 (NewRecursiveFiller_fixedPrecision
                  Grid.contains Grid.intersects _ Hall)).
  now left.
Defined.

(** The maximum precision of a filler is the one of the last
    [WithMaxPrecision] among its options, when the options after it are
    package options, and 6 when package options hold no
    [WithMaxPrecision]. *)
Theorem NewRecursiveFiller_maxPrecision {Polygon E : Type}
    (Contains Intersects : predicate Polygon E)
    (before after : list (Option Polygon E)) (p : Z) :
  Forall package_option after ->
  (forall q, ~ In (WithMaxPrecision q) after) ->
  maxPrecision
    (NewRecursiveFiller Contains Intersects
                        (before ++ WithMaxPrecision p :: after)) = p
  /\ maxPrecision (NewRecursiveFiller Contains Intersects after) = 6.
Proof.
  intros Hall Hno. split.
  - change (WithMaxPrecision p :: after)
      with ([WithMaxPrecision p] ++ after).
    rewrite app_assoc, NewRecursiveFiller_app.
    rewrite options_keep_precision by assumption.
    now rewrite NewRecursiveFiller_app.
  - exact (options_keep_precision after _ Hall Hno).
Qed.

Lemma NewRecursiveFiller_maxPrecision_witness :
  Forall package_option
         [WithFixedPrecision (Polygon := Grid.polygon) (E := string)]
  /\ maxPrecision
       (NewRecursiveFiller Grid.contains Grid.intersects
                           ([WithMaxPrecision 3]
                              ++ WithMaxPrecision 8 :: [WithFixedPrecision]))
     = 8.
Proof.
  assert (Hall : Forall package_option
                        [WithFixedPrecision (Polygon := Grid.polygon)
                                            (E := string)])
    by (constructor; [right; left; reflexivity | constructor]).
  split; [exact Hall|].
  apply (NewRecursiveFiller_maxPrecision
           Grid.contains Grid.intersects [WithMaxPrecision 3]
           [WithFixedPrecision] 8 Hall).
  intros q [H|[]].
  now destruct (WithMaxPrecision_not_fixed Grid.contains Grid.intersects q).
Defined.

(** [WithPredicates] replaces the two predicates together: the predicates
    of a filler are the pair of the last [WithPredicates] among its
    options, when the options after it are package options, and the
    default pair when package options hold no [WithPredicates]. *)
Theorem NewRecursiveFiller_predicates {Polygon E : Type}
    (Contains Intersects : predicate Polygon E)
    (before after : list (Option Polygon E))
    (contains intersects : predicate Polygon E) :
  Forall package_option after ->
  (forall c i, ~ In (WithPredicates c i) after) ->
  (container
     (NewRecursiveFiller Contains Intersects
                         (before ++ WithPredicates contains intersects
                                 :: after)) = contains
   /\ intersector
        (NewRecursiveFiller Contains Intersects
                            (before ++ WithPredicates contains intersects
                                    :: after)) = intersects)
  /\ container (NewRecursiveFiller Contains Intersects after) = Contains
  /\ intersector (NewRecursiveFiller Contains Intersects after) = Intersects.
Proof.
  intros Hall Hno. split.
  - change (WithPredicates contains intersects :: after)
      with ([WithPredicates contains intersects] ++ after).
    rewrite app_assoc, NewRecursiveFiller_app.
    destruct (options_keep_predicates after
                (NewRecursiveFiller Contains Intersects
                   (before ++ [WithPredicates contains intersects]))
                Hall Hno) as [-> ->].
    now rewrite NewRecursiveFiller_app.
  - exact (options_keep_predicates after _ Hall Hno).
Qed.

Lemma NewRecursiveFiller_predicates_witness :
  Forall package_option
         [WithFixedPrecision (Polygon := Grid.polygon) (E := string)]
  /\ container
       (NewRecursiveFiller
          (fun _ _ => (true, None)) (fun _ _ => (true, None))
          ([] ++ WithPredicates Grid.contains Grid.intersects
              :: [WithFixedPrecision]))
     = Grid.contains.
Proof.
  assert (Hall : Forall package_option
                        [WithFixedPrecision (Polygon := Grid.polygon)
                                            (E := string)])
    by (constructor; [right; left; reflexivity | constructor]).
  split; [exact Hall|].
  apply (NewRecursiveFiller_predicates
           (fun _ _ => (true, None)) (fun _ _ => (true, None))
           [] [WithFixedPrecision] Grid.contains Grid.intersects Hall).
  intros c i [H|[]].
  now destruct (WithPredicates_not_fixed Grid.contains Grid.intersects c i).
Defined.

Lemma computeVariableHashes_starves_witness :
  maxPrecision (Grid.boundless 0 false) < strlen "9"
  /\ forall fuel,
      computeVariableHashes (Grid.boundless 0 false) fuel Grid.nowhere
                            FillIntersects "9" 10 = None.
Proof.
  split; [vm_compute; reflexivity|].
  intros fuel.
  apply (computeVariableHashes_starves
           (Grid.boundless 0 false) Grid.nowhere FillIntersects 10).
  - intros c. split; reflexivity.
  - vm_compute. reflexivity.
Defined.
